(** * pcdsdevices: state tables, in/out positioners, LODCM and motor checks

    A shallow embedding of the device logic of [pcdsdevices]:
    - [inout.py]  : [InOutPositioner] (inserted / removed / transmission),
    - [lodcm.py]  : [Foil] and [LODCM] (destination, diagnostics),
    - [epics/state.py] : [PVState.value], [SubscriptionStatus], [StateStatus],
    - [epics/lodcm.py] : the table driven [LODCM.destination],
    - [epics_motor.py] : [PCDSMotorBase.check_value] and [IMS._clear_flag].

    Readbacks of process variables are inputs of the model: a device is a
    record holding its class attributes together with the values its signals
    currently read. *)

From Stdlib Require Import ZArith QArith.
From stdpp Require Import base option list strings gmap.

Local Open Scope string_scope.
Local Open Scope list_scope.

(** ** Python values used by the devices *)

(** Numbers returned by [transmission]: the integer defaults [0] and [1],
    the float literals of a [_transmission] table, and [math.nan]. *)
Inductive pynum : Type :=
  | PyInt (z : Z)
  | PyFloat (q : Q)
  | PyNaN.

#[local] Set Warnings "-register-all".

(** Strings and (possibly nested) lists of them, as returned by
    [LODCM.destination]. *)
Inductive pyval : Type :=
  | PStr (s : string)
  | PList (l : list pyval).

(** A list of beamline names as the Python list object holding them. *)
Definition str_list (l : list string) : pyval := PList (PStr <$> l).

(** Exceptions the modelled methods raise. *)
Inductive exn : Type :=
  | IndexError
  | KeyError
  | ValueError
  | FrameworkError
  | Exception (msg : string)
  | LimitError.

(** [sub in s] on Python strings. *)
Fixpoint contains (sub s : string) : bool :=
  if String.prefix sub s then true
  else match s with
       | EmptyString => false
       | String _ rest => contains sub rest
       end.

(** [itertools.chain]: the elements of each of its arguments in turn. *)
Definition chain (iterables : list (list pyval)) : list pyval :=
  concat iterables.

(** ** inout.py *)

Module InOut.
Section InOut.

(** [E] is a device's state enumeration.  [get_state], [position] and
    [move] are inherited from [StatePositioner] in module [state]: here
    [get_state] is a field of the device (it takes names and aliases to
    enumeration members), [position] the name the device currently
    reports, and a call of [move] the request made. *)
Context {E : Type} `{Countable E}.

Record InOutPositioner : Type := {
  states_list : list string;
  in_states : list string;
  out_states : list string;
  _transmission : gmap string pynum;
  get_state : string -> E;
  position : string;
}.

(** What [insert] and [remove] hand back: a fresh [NullStatus()], the
    result of [self.move(target, ...)], or an exception. *)
Inductive request : Type :=
  | NullStatus
  | Move (target : string)
  | Raise (e : exn).

Section Device.
Variable self : InOutPositioner.

(** [_extend_trans_enum]: one assignment
    [_trans_enum[get_state(state)] = _transmission.get(state, default)]
    per listed state, in list order. *)
Definition _extend_trans_enum (trans_enum : gmap E pynum)
    (state_list : list string) (dflt : pynum) : gmap E pynum :=
  foldl (fun te state =>
           <[get_state self state :=
               default dflt (_transmission self !! state)]> te)
        trans_enum state_list.

(** [_trans_enum] as [__init__] leaves it. *)
Definition _trans_enum : gmap E pynum :=
  _extend_trans_enum
    (_extend_trans_enum ∅ (in_states self) (PyInt 0))
    (out_states self) (PyInt 1).

Definition transmission : pynum :=
  let state := get_state self (position self) in
  default PyNaN (_trans_enum !! state).

(** The loop of [_pos_in_list] for a given [current_state]. *)
Fixpoint _pos_in_list_from (current_state : E) (state_list : list string)
    : bool :=
  match state_list with
  | [] => false
  | state :: rest =>
      if decide (current_state = get_state self state) then true
      else _pos_in_list_from current_state rest
  end.

Definition _pos_in_list (state_list : list string) : bool :=
  _pos_in_list_from (get_state self (position self)) state_list.

Definition inserted : bool := _pos_in_list (in_states self).

Definition removed : bool := _pos_in_list (out_states self).

(** [self.move(self.in_states[0], ...)]; indexing an empty list raises. *)
Definition insert : request :=
  match in_states self with
  | [] => Raise IndexError
  | first :: _ => Move first
  end.

Definition remove : request :=
  if removed then NullStatus
  else match out_states self with
       | [] => Raise IndexError
       | first :: _ => Move first
       end.

(** The transmission as the specification words it, on state names: the
    [_transmission] entry of the current state when there is one, else the
    default of the list the state is in. *)
Definition transmission_spec : pynum :=
  let state := position self in
  match _transmission self !! state with
  | Some ratio => ratio
  | None =>
      if bool_decide (state ∈ out_states self) then PyInt 1
      else if bool_decide (state ∈ in_states self) then PyInt 0
      else PyNaN
  end.

(** The name under which [state_list] mentions the enumeration member [e]:
    the last one, since later assignments to [_trans_enum] win. *)
Definition named (e : E) (state_list : list string) : option string :=
  last (filter (fun state => get_state self state = e) state_list).

(** The ratio recorded for the current state: looked up through the lists,
    [out_states] before [in_states]. *)
Definition recorded_ratio : pynum :=
  let e := get_state self (position self) in
  match named e (out_states self) with
  | Some state => default (PyInt 1) (_transmission self !! state)
  | None =>
      match named e (in_states self) with
      | Some state => default (PyInt 0) (_transmission self !! state)
      | None => PyNaN
      end
  end.

End Device.

(** Running a request against an implementation of [move] (the inherited
    method: it takes the device and the target and yields the device
    afterwards).  A [NullStatus] or an exception leaves the device as it
    is. *)
Definition run (move : InOutPositioner -> string -> InOutPositioner)
    (self : InOutPositioner) (r : request) : InOutPositioner :=
  match r with
  | Move target => move self target
  | NullStatus | Raise _ => self
  end.

End InOut.
Arguments InOutPositioner E : clear implicits.
End InOut.

(** ** lodcm.py *)

Module Lodcm.
Import InOut.
Section Lodcm.
Context {E : Type} `{Countable E}.

(** [Foil.__init__]: the foils depend on the hutch named in the prefix;
    without a match the class attribute [in_states = []] stays. *)
Definition Foil_in_states (prefix : string) : list string :=
  if contains "XPP" prefix then ["Mo"; "Zr"; "Zn"; "Cu"; "Ni"; "Fe"; "Ti"]
  else if contains "XCS" prefix then ["Mo"; "Zr"; "Ge"; "Cu"; "Ni"; "Fe"; "Ti"]
  else [].

(** The [super().__init__] that ends [Foil.__init__]: the initialiser
    inherited from [StatePositioner] (module [state]) puts the unknown
    state, ['Unknown'], in front of the [states_list] it finds, so the
    constructed device lists it first. *)
Definition StatePositioner_init (states_list : list string) : list string :=
  "Unknown" :: states_list.

(** [Foil.__init__]: [in_states] by the prefix, [states_list] set to
    [['OUT'] + self.in_states], then the inherited initialiser. *)
Definition Foil (prefix : string) (get_state : string -> E)
    (position : string) : InOutPositioner E :=
  let in_states := Foil_in_states prefix in
  {| states_list := StatePositioner_init ("OUT" :: in_states);
     in_states := in_states;
     out_states := ["OUT"];
     _transmission := ∅;
     get_state := get_state;
     position := position |}.

(** The other diagnostics, with their class attributes; [out_states] is
    inherited from [InOutPositioner] unless overridden. *)
Definition YagLom (get_state : string -> E) (position : string)
    : InOutPositioner E :=
  {| states_list := ["OUT"; "YAG"; "SLIT1"; "SLIT2"; "SLIT3"];
     in_states := ["YAG"; "SLIT1"; "SLIT2"; "SLIT3"];
     out_states := ["OUT"];
     _transmission := ∅;
     get_state := get_state;
     position := position |}.

Definition Dectris (get_state : string -> E) (position : string)
    : InOutPositioner E :=
  {| states_list := ["OUT"; "DECTRIS"; "SLIT1"; "SLIT2"; "SLIT3"; "OUTLOW"];
     in_states := ["DECTRIS"; "SLIT1"; "SLIT2"; "SLIT3"];
     out_states := ["OUT"; "OUTLOW"];
     _transmission := ∅;
     get_state := get_state;
     position := position |}.

Definition Diode (get_state : string -> E) (position : string)
    : InOutPositioner E :=
  {| states_list := ["OUT"; "IN"];
     in_states := ["IN"];
     out_states := ["OUT"];
     _transmission := ∅;
     get_state := get_state;
     position := position |}.

(** The positioner part of the LODCM class itself. *)
Definition H1N (get_state : string -> E) (position : string)
    : InOutPositioner E :=
  {| states_list := ["OUT"; "C"; "Si"];
     in_states := ["C"; "Si"];
     out_states := ["OUT"];
     _transmission := {[ "C" := PyFloat (8 # 10); "Si" := PyFloat (7 # 10) ]};
     get_state := get_state;
     position := position |}.

(** The LODCM: its own H1N positioner, the two lines, and the four
    diagnostics between the crystals. *)
Record LODCM : Type := {
  h1n : InOutPositioner E;
  main_line : list string;
  mono_line : list string;
  yag : InOutPositioner E;
  dectris : InOutPositioner E;
  diode : InOutPositioner E;
  foil : InOutPositioner E;
}.

Definition _dia_clear (self : LODCM) : bool :=
  let yag_clear := removed (yag self) in
  let dectris_clear := removed (dectris self) in
  let foil_clear := removed (foil self) in
  forallb id [yag_clear; dectris_clear; foil_clear].

Definition destination (self : LODCM) : pyval :=
  let position := position (h1n self) in
  if String.eqb position "OUT" then str_list (main_line self)
  else if String.eqb position "Si" && _dia_clear self
  then str_list (mono_line self)
  else if String.eqb position "C" then
    if _dia_clear self
    then PList (chain [[str_list (mono_line self); str_list (main_line self)]])
    else str_list (main_line self)
  else PList [].

(** [remove_dia]: [remove] on each diagnostic, in the order of the source. *)
Definition remove_dia (self : LODCM) : list request :=
  remove <$> [yag self; dectris self; diode self; foil self].

(** The same LODCM with another diode. *)
Definition with_diode (self : LODCM) (d : InOutPositioner E) : LODCM :=
  {| h1n := h1n self; main_line := main_line self;
     mono_line := mono_line self; yag := yag self;
     dectris := dectris self; diode := d; foil := foil self |}.

End Lodcm.
Arguments LODCM E : clear implicits.

(** A LODCM built with the default lines ([main_line=['MAIN']],
    [mono_line=['MONO']]) under prefix [XPP:LODCM], every state name being
    its own enumeration member, with H1N and the diagnostics reading the
    given states. *)
Definition default_lodcm (h1n_pos yag_pos dectris_pos diode_pos foil_pos
    : string) : LODCM string :=
  {| h1n := H1N id h1n_pos;
     main_line := ["MAIN"];
     mono_line := ["MONO"];
     yag := YagLom id yag_pos;
     dectris := Dectris id dectris_pos;
     diode := Diode id diode_pos;
     foil := Foil "XPP:LODCM:FOIL" id foil_pos |}.

End Lodcm.

(** ** epics/state.py *)

Module State.

(** A raw readback: EPICS hands back an integer or a string. *)
Inductive pv_value : Type :=
  | PVInt (n : Z)
  | PVStr (s : string).

#[global] Instance pv_value_eq_dec : EqDecision pv_value.
Proof. solve_decision. Defined.

#[global] Instance pv_value_countable : Countable pv_value.
Proof.
  refine (inj_countable'
    (fun v => match v with PVInt n => inl n | PVStr s => inr s end)
    (fun x => match x with inl n => PVInt n | inr s => PVStr s end) _).
  by intros [].
Defined.

(** A [PVState] class and the readbacks of its signals.  [_states] is the
    ordered dict of information dictionaries, one per state signal; an
    information dictionary maps readbacks to state names (and the key
    ['pvname'] to the PV suffix).  [signal_get state] is
    [getattr(self, state).get(use_monitor=True)]. *)
Record PVState : Type := {
  _states : list (string * gmap pv_value string);
  signal_get : string -> pv_value;
}.

(** Truth value of [state_value], which is [None] or a string. *)
Definition truthy (state_value : option string) : bool :=
  match state_value with
  | None => false
  | Some s => negb (String.eqb s "")
  end.

(** The loop of [PVState.value] over the remaining items of [_states],
    with the running [state_value].  A [KeyError] or a failed assertion
    sets ['unknown'] and breaks. *)
Fixpoint value_loop (signal_get : string -> pv_value)
    (items : list (string * gmap pv_value string))
    (state_value : option string) : option string :=
  match items with
  | [] => state_value
  | (state, info) :: rest =>
      let pv_value := signal_get state in
      match info !! pv_value with
      | None => Some "unknown"
      | Some signal_state =>
          if negb (String.eqb signal_state "defer") then
            if truthy state_value
               && negb (bool_decide (Some signal_state = state_value))
            then Some "unknown"
            else value_loop signal_get rest (Some signal_state)
          else value_loop signal_get rest state_value
      end
  end.

(** [return state_value or 'unknown']. *)
Definition value (self : PVState) : string :=
  let state_value := value_loop (signal_get self) (_states self) None in
  if truthy state_value then default "unknown" state_value else "unknown".

(** The aggregation as the specification words it: the table entry each
    signal selects, [None] where the readback has no entry. *)
Definition entries_of (signal_get : string -> pv_value)
    (items : list (string * gmap pv_value string)) : list (option string) :=
  (fun item => snd item !! signal_get (fst item)) <$> items.

Definition entries (self : PVState) : list (option string) :=
  entries_of (signal_get self) (_states self).

Definition non_defer (es : list (option string)) : list string :=
  filter (fun e => e ≠ "defer") (omap id es).

Definition value_spec (self : PVState) : string :=
  if bool_decide (None ∈ entries self) then "unknown"
  else match non_defer (entries self) with
       | [] => "unknown"
       | e :: rest => if bool_decide (Forall (eq e) rest) then e else "unknown"
       end.

(** *** SubscriptionStatus and StateStatus

    The device side is the framework's: [subscribe] appends a callback to
    the subscriptions of an event type and, with [run=True], calls it at
    once; [clear_sub] removes it; [_run_subs] calls every callback that is
    subscribed when the notification starts.  A status is identified by its
    position in the store of status objects. *)

Record StateStatus : Type := {
  desired_state : string;
  done : bool;
  success : bool;
}.

(** A state device with the status objects watching it.  [dev_value] is
    what the [value] property reads now, [_prev_value] what [_update] saw
    last ([None] before the first call), [subs] the checks subscribed to
    [SUB_STATE], in subscription order. *)
Record world : Type := {
  dev_value : string;
  _prev_value : option string;
  subs : list nat;
  statuses : list StateStatus;
}.

(** [SubscriptionStatus._finished]: clear the subscription, then complete. *)
Definition _finished (w : world) (id : nat) (ok : bool) : world :=
  {| dev_value := dev_value w;
     _prev_value := _prev_value w;
     subs := filter (fun cb => cb ≠ id) (subs w);
     statuses := alter (fun st => {| desired_state := desired_state st;
                                     done := true; success := ok |})
                       id (statuses w) |}.

(** [check_state] of [StateStatus.__init__]. *)
Definition check_state (w : world) (desired_state : string) : bool :=
  String.eqb (dev_value w) desired_state.

(** [SubscriptionStatus.check_value] of status [id]. *)
Definition check_value (w : world) (id : nat) : world :=
  match statuses w !! id with
  | None => w
  | Some st =>
      if check_state w (desired_state st) then _finished w id true else w
  end.

(** [StateStatus(device, desired_state)]: a fresh unfinished status,
    subscribed, and checked at once. *)
Definition new_StateStatus (w : world) (desired : string) : world * nat :=
  let id := length (statuses w) in
  let w' := {| dev_value := dev_value w;
               _prev_value := _prev_value w;
               subs := subs w ++ [id];
               statuses := statuses w ++
                 [{| desired_state := desired; done := false;
                     success := false |}] |} in
  (check_value w' id, id).

Definition _run_subs (w : world) : world :=
  foldl check_value w (subs w).

(** The signals now make [value] read [v], and [State._update] runs. *)
Definition _update (w : world) (v : string) : world :=
  let w := {| dev_value := v; _prev_value := _prev_value w;
              subs := subs w; statuses := statuses w |} in
  if bool_decide (Some (dev_value w) ≠ _prev_value w) then
    let w' := _run_subs w in
    {| dev_value := dev_value w'; _prev_value := Some (dev_value w');
       subs := subs w'; statuses := statuses w' |}
  else w.

(** Status [i] watches for [d] and is finished or not as [fin] says:
    finished with success and unsubscribed, or pending and subscribed. *)
Definition watching (i : nat) (d : string) (fin : bool) (w : world) : Prop :=
  ∃ st, statuses w !! i = Some st ∧ desired_state st = d ∧
        done st = fin ∧ success st = fin ∧
        bool_decide (i ∈ subs w) = negb fin.

Inductive event : Type :=
  | Create (desired : string)
  | Update (v : string).

Definition step (w : world) (e : event) : world :=
  match e with
  | Create desired => fst (new_StateStatus w desired)
  | Update v => _update w v
  end.

Definition steps (w : world) (es : list event) : world := foldl step w es.

(** The values seen by the state-change notifications of a run: those
    updates at which [_update] finds the value changed. *)
Fixpoint notified (prev : option string) (es : list event) : list string :=
  match es with
  | [] => []
  | Create _ :: rest => notified prev rest
  | Update v :: rest =>
      if bool_decide (Some v ≠ prev) then v :: notified (Some v) rest
      else notified prev rest
  end.

End State.

(** ** epics/lodcm.py *)

Module EpicsLodcm.
Import State.

(** [Enum("LightStates", "BLOCKED MAIN MONO BOTH UNKNOWN", start=0)]. *)
Inductive light_states : Type :=
  | BLOCKED
  | MAIN
  | MONO
  | BOTH
  | UNKNOWN.

#[global] Instance light_states_eq_dec : EqDecision light_states.
Proof. solve_decision. Defined.

Definition members : list (string * light_states) :=
  [("BLOCKED", BLOCKED); ("MAIN", MAIN); ("MONO", MONO); ("BOTH", BOTH);
   ("UNKNOWN", UNKNOWN)].

(** [light_states[name]]: lookup by member name ([KeyError] as [None]). *)
Definition by_name (key : pv_value) : option light_states :=
  match key with
  | PVStr s => snd <$> find (fun m => String.eqb (fst m) s) members
  | PVInt _ => None
  end.

(** [light_states(value)]: lookup by member value, counted from 0
    ([ValueError] as [None]). *)
Definition by_value (key : pv_value) : option light_states :=
  match key with
  | PVInt n => if (0 <=? n)%Z then snd <$> members !! Z.to_nat n else None
  | PVStr _ => None
  end.

(** [tuple.index]: position of the first equal element. *)
Fixpoint index (t : list string) (x : string) : option nat :=
  match t with
  | [] => None
  | y :: rest => if String.eqb y x then Some 0 else S <$> index rest x
  end.

(** What a call of [destination] does: return a string, fall off the end
    of the function (returning [None]), or raise. *)
Inductive result : Type :=
  | Return (s : string)
  | ReturnNone
  | Raised (e : exn).

(** The epics-module LODCM: the values of its two states records. *)
Record LODCM : Type := {
  h1n_state : string;
  h2n_state : string;
}.

Definition main_table : list (list string) :=
  [ ["MAIN"; "MAIN"; "MAIN"];
    ["MAIN"; "BOTH"; "MAIN"];
    ["BLOCKED"; "BLOCKED"; "MONO"] ].

Definition mono_table : list string := ["MONO"; "BLOCKED"; "BLOCKED"].

Definition crystals : list string := ["OUT"; "C"; "Si"].

Definition destination (self : LODCM) (line : option pv_value) : result :=
  let resolved :=
    match line with
    | None => Some MAIN
    | Some l => match by_name l with
                | Some m => Some m
                | None => by_value l
                end
    end in
  match resolved with
  | None => Raised ValueError
  | Some MAIN =>
      match index crystals (h1n_state self), index crystals (h2n_state self) with
      | Some n1, Some n2 =>
          match main_table !! n1 ≫= (fun row => row !! n2) with
          | Some s => Return s
          | None => Raised IndexError
          end
      | _, _ => Return "UNKNOWN"
      end
  | Some MONO =>
      match index crystals (h2n_state self) with
      | Some n2 =>
          match mono_table !! n2 with
          | Some s => Return s
          | None => Raised IndexError
          end
      | None => Return "UNKNOWN"
      end
  | Some _ => ReturnNone
  end.

End EpicsLodcm.

(** ** epics_motor.py *)

Module Motor.
Import State.

(** The three states of the [SPG] field, in record order. *)
Inductive spg : Type :=
  | Stop
  | Pause
  | Go.

Definition spg_index (s : spg) : Z :=
  match s with Stop => 0 | Pause => 1 | Go => 2 end.

Definition spg_name (s : spg) : string :=
  match s with Stop => "Stop" | Pause => "Pause" | Go => "Go" end.

(** A readback of the field shows a state by its index or by its name. *)
Definition reads (s : spg) (v : pv_value) : Prop :=
  v = PVInt (spg_index s) ∨ v = PVStr (spg_name s).

(** The signals [check_value] reads.  Positions and limits are finite
    floats, taken as the rationals they denote. *)
Record PCDSMotorBase : Type := {
  disabled : Z;
  motor_spg : pv_value;
  low_soft_limit : Q;
  high_soft_limit : Q;
}.

Definition limits (self : PCDSMotorBase) : Q * Q :=
  (low_soft_limit self, high_soft_limit self).

(** [x in [a, b]] on readbacks. *)
Definition in_ (x : pv_value) (l : list pv_value) : bool :=
  bool_decide (x ∈ l).

(** [check_value]: [None] when it returns, [Some e] when it raises [e].
    [super_check_value] is the framework's [EpicsMotor.check_value]. *)
Definition check_value (super_check_value : Q -> option exn)
    (self : PCDSMotorBase) (value : Q) : option exn :=
  match super_check_value value with
  | Some e => Some e
  | None =>
      if (disabled self =? 1)%Z then
        Some (Exception "Motor is not enabled. Motion requests ignored")
      else if in_ (motor_spg self) [PVInt 0; PVStr "Stop"] then
        Some (Exception "Motor is stopped.  Motion requests ignored until motor is set to 'Go'")
      else if in_ (motor_spg self) [PVInt 1; PVStr "Pause"] then
        Some (Exception "Motor is paused.  If a move is set, motion will resume when motor is set to 'Go'")
      else
        let '(low_limit, high_limit) := limits self in
        if negb (Qle_bool low_limit value && Qle_bool value high_limit)
        then Some LimitError
        else None
  end.

(** *** IMS flags *)

Record flag_info : Type := {
  clear : Z;
  readback : Z;
  mask : option Z;
}.

Definition _bit_flags : gmap string flag_info :=
  {[ "powerup" := {| clear := 36; readback := 24; mask := None |};
     "stall" := {| clear := 40; readback := 22; mask := None |};
     "error" := {| clear := 48; readback := 15; mask := Some 0x7f%Z |} ]}.

(** The readback bits of a flag in a value of [bit_status]; the mask is 1
    where the table gives none. *)
Definition masked_bits (info : flag_info) (value : Z) : Z :=
  Z.land (Z.shiftr value (readback info)) (default 1%Z (mask info)).

(** [not bool((int(value) >> bit) & mask)]. *)
Definition flag_is_cleared (bit mask value : Z) : bool :=
  negb (negb (Z.land (Z.shiftr value bit) mask =? 0)%Z).

(** The status objects [_clear_flag] builds: a [DeviceStatus] created
    finished, or a [SubscriptionStatus] on [bit_status] with its callback. *)
Inductive status : Type :=
  | DeviceStatus (done success : bool)
  | SubscriptionStatus (callback : Z -> bool).

(** The outcome of a call: the values put to [seq_seln], and the status
    returned or the exception raised. *)
Record outcome : Type := {
  seq_seln_puts : list Z;
  returned : exn + status;
}.

(** [_clear_flag(flag, wait, timeout)] with [bit_status] reading
    [bit_status].  [status_wait] is the framework's blocking wait: [None]
    when the status completed in time, an exception otherwise. *)
Definition _clear_flag (status_wait : status -> option exn)
    (bit_status : Z) (flag : string) (wait : bool) : outcome :=
  match _bit_flags !! flag with
  | None => {| seq_seln_puts := []; returned := inl KeyError |}
  | Some flag_info =>
      let bit := readback flag_info in
      let mask := default 1%Z (mask flag_info) in
      if flag_is_cleared bit mask bit_status then
        {| seq_seln_puts := [];
           returned := inr (DeviceStatus true true) |}
      else
        let st := SubscriptionStatus (flag_is_cleared bit mask) in
        {| seq_seln_puts := [clear flag_info];
           returned :=
             if wait then
               match status_wait st with
               | Some e => inl e
               | None => inr st
               end
             else inr st |}
  end.

(** A [SubscriptionStatus] runs its callback on the value it is created
    at and on every later update, and finishes at the first success
    (as [SubscriptionStatus.check_value] does); a [DeviceStatus] keeps the
    completion it was created with. *)
Definition completed (st : status) (values : list Z) : bool :=
  match st with
  | DeviceStatus done _ => done
  | SubscriptionStatus callback => existsb callback values
  end.

End Motor.

(** ** inout.py and lodcm.py: moves carried out *)

Module Motion.
Import InOut Lodcm.
Section Motion.
Context {E : Type} `{Countable E}.

(** The device once a requested move has completed: it reports the state
    it was sent to, and nothing else about it has changed. *)
Definition arrive (self : InOutPositioner E) (target : string)
    : InOutPositioner E :=
  {| states_list := states_list self;
     in_states := in_states self;
     out_states := out_states self;
     _transmission := _transmission self;
     get_state := get_state self;
     position := target |}.

(** [LODCM.branches]: [self.main_line + self.mono_line]. *)
Definition branches (self : LODCM E) : list string :=
  main_line self ++ mono_line self.


End Motion.

(** The strings a value of [destination] holds, at any depth. *)
Fixpoint names (v : pyval) : list string :=
  match v with
  | PStr s => [s]
  | PList l =>
      (fix names_of (l : list pyval) : list string :=
         match l with
         | [] => []
         | x :: rest => names x ++ names_of rest
         end) l
  end.

End Motion.

(** ** epics/state.py: the states record *)

Module StatesRecord.
Import State.

(** A [DeviceStatesRecord]: the enum strings of its [state] signal, what
    the signal reads and what its setpoint reads (both as strings), and
    the [_move_requested] flag. *)
Record DeviceStatesRecord : Type := {
  enum_strs : list string;
  state_get : string;
  state_setpoint : string;
  _move_requested : bool;
}.

(** [check_value]: [true] when it returns, [false] when it raises
    [StateError].  A string is looked up among the enum strings, an
    integer in [range(len(enums))]. *)
Definition check_value (self : DeviceStatesRecord) (value : pv_value) : bool :=
  match value with
  | PVStr s => bool_decide (s ∈ enum_strs self)
  | PVInt n => bool_decide (0 ≤ n < Z.of_nat (length (enum_strs self)))%Z
  end.

(** What [move] does (with [wait=False]): raise [StateError] from the
    check the framework's [move] runs first, or set [_move_requested] and
    either put the position to the signal, leaving the status pending, or
    finish the status at once with success. *)
Inductive move_result : Type :=
  | StateError
  | Put (self : DeviceStatesRecord) (position : pv_value)
  | Finished (self : DeviceStatesRecord).

Definition request (self : DeviceStatesRecord) : DeviceStatesRecord :=
  {| enum_strs := enum_strs self;
     state_get := state_get self;
     state_setpoint := state_setpoint self;
     _move_requested := true |}.

Definition move (self : DeviceStatesRecord) (position : pv_value)
    : move_result :=
  if check_value self position then
    if bool_decide (PVStr (state_get self) ≠ position)
    then Put (request self) position
    else Finished (request self)
  else StateError.

(** [_read_changed] once the signal reads [readback]: the device
    afterwards, and the [success] handed to [_done_moving] if it is
    called. *)
Definition _read_changed (self : DeviceStatesRecord) (readback : string)
    : DeviceStatesRecord * option bool :=
  let self := {| enum_strs := enum_strs self;
                 state_get := readback;
                 state_setpoint := state_setpoint self;
                 _move_requested := _move_requested self |} in
  if _move_requested self then
    if negb (String.eqb (state_get self) "Unknown") then
      ({| enum_strs := enum_strs self;
          state_get := state_get self;
          state_setpoint := state_setpoint self;
          _move_requested := false |},
       Some (String.eqb (state_setpoint self) (state_get self)))
    else (self, None)
  else (self, None).

(** A run of readback changes: the device afterwards and the [success]
    of every [_done_moving] call, in order. *)
Fixpoint readbacks (self : DeviceStatesRecord) (rs : list string)
    : DeviceStatesRecord * list bool :=
  match rs with
  | [] => (self, [])
  | r :: rest =>
      let '(self', call) := _read_changed self r in
      let '(self'', calls) := readbacks self' rest in
      (self'', from_option (fun ok => [ok]) [] call ++ calls)
  end.

End StatesRecord.

(** ** epics/state.py: bookkeeping of the subscriptions *)

Module Subscriptions.
Import State.

(** The identifiers, from [k] on, of the statuses that are not done. *)
Fixpoint pending_from (k : nat) (sts : list StateStatus) : list nat :=
  match sts with
  | [] => []
  | st :: rest =>
      if done st then pending_from (S k) rest
      else k :: pending_from (S k) rest
  end.

(** A device on which no status has been created yet. *)
Definition fresh (value : string) (prev : option string) : world :=
  {| dev_value := value; _prev_value := prev; subs := []; statuses := [] |}.

End Subscriptions.

(** ** epics_motor.py: commands *)

Module MotorOps.
Import State Motor.

(** A [put] to one of the signals [check_value] reads; the signal then
    reads what was put. *)
Definition put_disabled (self : PCDSMotorBase) (value : Z) : PCDSMotorBase :=
  {| disabled := value; motor_spg := motor_spg self;
     low_soft_limit := low_soft_limit self;
     high_soft_limit := high_soft_limit self |}.

Definition put_motor_spg (self : PCDSMotorBase) (value : pv_value)
    : PCDSMotorBase :=
  {| disabled := disabled self; motor_spg := value;
     low_soft_limit := low_soft_limit self;
     high_soft_limit := high_soft_limit self |}.

Definition enable (self : PCDSMotorBase) : PCDSMotorBase :=
  put_disabled self 0.

Definition disable (self : PCDSMotorBase) : PCDSMotorBase :=
  put_disabled self 1.

Definition stop (self : PCDSMotorBase) : PCDSMotorBase :=
  put_motor_spg self (PVStr "Stop").

Definition pause (self : PCDSMotorBase) : PCDSMotorBase :=
  put_motor_spg self (PVStr "Pause").

Definition go (self : PCDSMotorBase) : PCDSMotorBase :=
  put_motor_spg self (PVStr "Go").

(** The setters of [low_limit] and [high_limit]. *)
Definition set_low_limit (self : PCDSMotorBase) (value : Q) : PCDSMotorBase :=
  {| disabled := disabled self; motor_spg := motor_spg self;
     low_soft_limit := value;
     high_soft_limit := high_soft_limit self |}.

Definition set_high_limit (self : PCDSMotorBase) (value : Q) : PCDSMotorBase :=
  {| disabled := disabled self; motor_spg := motor_spg self;
     low_soft_limit := low_soft_limit self;
     high_soft_limit := value |}.

(** The setter of [limits]: [limits[0]] to the low limit, then
    [limits[1]] to the high one. *)
Definition set_limits (self : PCDSMotorBase) (limits : Q * Q)
    : PCDSMotorBase :=
  set_high_limit (set_low_limit self (fst limits)) (snd limits).

(** *** IMS: flags and reinitialisation in sequence *)

(** The signals the IMS routines read. *)
Record IMS : Type := {
  part_number : string;
  error_severity : Z;
  bit_status : Z;
}.

(** The commands they send: a put to [reinit_command] or to [seq_seln]. *)
Inductive command : Type :=
  | Reinit (value : Z)
  | SeqSeln (code : Z).

(** The state of a routine under way: what the signals read, the commands
    sent so far, and the exception that ended it, if any. *)
Record run : Type := {
  signals : IMS;
  sent : list command;
  raised : option exn;
}.

Section Hardware.
(** How the motor answers a command by the time the routine goes on, and
    the framework's blocking wait on a status. *)
Variable react : IMS -> command -> IMS.
Variable status_wait : status -> option exn.

(** [_clear_flag(flag, wait=True)] as a step of a routine: nothing happens
    once an exception is raised. *)
Definition clear_flag_step (r : run) (flag : string) : run :=
  match raised r with
  | Some _ => r
  | None =>
      let o := _clear_flag status_wait (bit_status (signals r)) flag true in
      let cmds := SeqSeln <$> seq_seln_puts o in
      {| signals := foldl react (signals r) cmds;
         sent := sent r ++ cmds;
         raised := match returned o with inl e => Some e | inr _ => None end |}
  end.

(** [clear_all_flags]: powerup, stall, error, each waited for. *)
Definition clear_all_flags (r : run) : run :=
  foldl clear_flag_step r ["powerup"; "stall"; "error"].

(** The callback of [reinitialize]'s status: [value != 3]. *)
Definition initialize_complete (value : Z) : bool := negb (value =? 3)%Z.

(** [reinitialize(wait=True)] as a step of a routine. *)
Definition reinitialize_step (r : run) : run :=
  match raised r with
  | Some _ => r
  | None =>
      {| signals := react (signals r) (Reinit 1);
         sent := sent r ++ [Reinit 1];
         raised := status_wait (SubscriptionStatus initialize_complete) |}
  end.

(** [not self.part_number.get() or self.error_severity.get() == 3]. *)
Definition needs_reinit (self : IMS) : bool :=
  String.eqb (part_number self) "" || (error_severity self =? 3)%Z.

(** [auto_setup], and [stage] up to its call of the framework's [stage]. *)
Definition auto_setup (self : IMS) : run :=
  let r := {| signals := self; sent := []; raised := None |} in
  let r := if needs_reinit self then reinitialize_step r else r in
  clear_all_flags r.

End Hardware.

(** Whether every flag of [_bit_flags] reads clear in a value of
    [bit_status]. *)
Definition all_clear (value : Z) : Prop :=
  ∀ flag info, _bit_flags !! flag = Some info → masked_bits info value = 0%Z.

End MotorOps.

(** ** Devices used as concrete instances *)

Module Examples.
Import InOut.

(** An in/out positioner subclass with a third state that neither list
    mentions but [_transmission] does; every name is its own member. *)
Definition mid_device (position : string) : InOutPositioner string :=
  {| states_list := ["IN"; "OUT"; "MID"];
     in_states := ["IN"];
     out_states := ["OUT"];
     _transmission := {[ "MID" := PyFloat (1 # 2) ]};
     get_state := id;
     position := position |}.

(** A two-signal [PVState] table in the shape of the [pvstate_class]
    docstring: each limit switch defers at 0 and names its state at 1. *)
Definition limits_states : list (string * gmap State.pv_value string) :=
  [("limit_in", {[ State.PVStr "pvname" := ":IN";
                   State.PVInt 0 := "defer"; State.PVInt 1 := "in" ]});
   ("limit_out", {[ State.PVStr "pvname" := ":OUT";
                    State.PVInt 0 := "defer"; State.PVInt 1 := "out" ]})].

Definition limits_device (limit_in limit_out : Z) : State.PVState :=
  {| State._states := limits_states;
     State.signal_get := fun state =>
       if String.eqb state "limit_in" then State.PVInt limit_in
       else State.PVInt limit_out |}.

(** The same table with the empty string as the state of [limit_in] at 0. *)
Definition blank_states : list (string * gmap State.pv_value string) :=
  [("limit_in", {[ State.PVStr "pvname" := ":IN";
                   State.PVInt 0 := ""; State.PVInt 1 := "in" ]});
   ("limit_out", {[ State.PVStr "pvname" := ":OUT";
                    State.PVInt 0 := "defer"; State.PVInt 1 := "out" ]})].

Definition blank_device (limit_in limit_out : Z) : State.PVState :=
  {| State._states := blank_states;
     State.signal_get := fun state =>
       if String.eqb state "limit_in" then State.PVInt limit_in
       else State.PVInt limit_out |}.

(** A motor with soft limits 0 and 10. *)
Definition motor (disabled : Z) (motor_spg : State.pv_value)
    : Motor.PCDSMotorBase :=
  {| Motor.disabled := disabled;
     Motor.motor_spg := motor_spg;
     Motor.low_soft_limit := 0;
     Motor.high_soft_limit := 10 |}.

(** A framework check that accepts every value. *)
Definition accept (value : Q) : option exn := None.

(** The limit switches listed the other way round. *)
Definition swapped_device (limit_in limit_out : Z) : State.PVState :=
  {| State._states := reverse limits_states;
     State.signal_get := State.signal_get (limits_device limit_in limit_out) |}.

(** An IMS motor with a part number, no alarm, and the given
    [bit_status]. *)
Definition ims (bit_status : Z) : MotorOps.IMS :=
  {| MotorOps.part_number := "MDrive23Plus";
     MotorOps.error_severity := 0;
     MotorOps.bit_status := bit_status |}.

(** A motor that answers a clear code by clearing all of [bit_status],
    and a reinitialisation by dropping the alarm. *)
Definition obedient (self : MotorOps.IMS) (c : MotorOps.command)
    : MotorOps.IMS :=
  match c with
  | MotorOps.SeqSeln _ =>
      {| MotorOps.part_number := MotorOps.part_number self;
         MotorOps.error_severity := MotorOps.error_severity self;
         MotorOps.bit_status := 0 |}
  | MotorOps.Reinit _ =>
      {| MotorOps.part_number := MotorOps.part_number self;
         MotorOps.error_severity := 0;
         MotorOps.bit_status := MotorOps.bit_status self |}
  end.

(** The same motor in alarm: severity 3. *)
Definition alarmed_ims (bit_status : Z) : MotorOps.IMS :=
  {| MotorOps.part_number := "MDrive23Plus";
     MotorOps.error_severity := 3;
     MotorOps.bit_status := bit_status |}.

(** A blocking wait that gives up on a status whose callback still reads
    the stall flag set (bit 22), and returns for every other status. *)
Definition stall_times_out (st : Motor.status) : option exn :=
  match st with
  | Motor.SubscriptionStatus callback =>
      if callback 4194304%Z then None else Some FrameworkError
  | Motor.DeviceStatus _ _ => None
  end.

(** A blocking wait that always sees its status complete in time. *)
Definition no_timeout (st : Motor.status) : option exn := None.

End Examples.

(** * Properties *)

(** ** In/out positioners *)

Section InOutFacts.
Import InOut.
Context {E : Type} `{Countable E}.
Implicit Types (self : InOutPositioner E) (e : E).

Lemma _pos_in_list_from_spec self e (l : list string) :
  _pos_in_list_from self e l = true ↔ ∃ s, s ∈ l ∧ get_state self s = e.
Proof.
  induction l as [|s l IH]; simpl.
  - split; [done | intros (s & Hs & _); by apply elem_of_nil in Hs].
  - destruct (decide (e = get_state self s)) as [->|Hne].
    + split; [intros _; exists s; split; [left | done] | done].
    + rewrite IH. split.
      * intros (s' & Hin & Hs'). exists s'. split; [by right | done].
      * intros (s' & Hin & Hs'). apply elem_of_cons in Hin as [->|Hin].
        { by destruct Hne. }
        by exists s'.
Qed.

Lemma removed_spec self :
  removed self = true ↔
  ∃ s, s ∈ out_states self ∧ get_state self s = get_state self (position self).
Proof. apply _pos_in_list_from_spec. Qed.

Lemma named_snoc self e (l : list string) s :
  named self e (l ++ [s]) =
  if decide (get_state self s = e) then Some s else named self e l.
Proof.
  unfold named. rewrite filter_app, filter_cons, filter_nil.
  destruct (decide (get_state self s = e)).
  - apply last_snoc.
  - by rewrite app_nil_r.
Qed.

(** One pass of [_extend_trans_enum]: a member mentioned by the list gets
    the ratio of its last mention, any other member keeps its entry. *)
Lemma _extend_trans_enum_lookup self (te : gmap E pynum) (l : list string)
    dflt e :
  _extend_trans_enum self te l dflt !! e =
  match named self e l with
  | Some s => Some (default dflt (_transmission self !! s))
  | None => te !! e
  end.
Proof.
  induction l as [|s l IH] using rev_ind; [done|].
  unfold _extend_trans_enum in *. rewrite foldl_app. simpl.
  rewrite named_snoc. destruct (decide (get_state self s = e)) as [<-|Hne].
  - by rewrite lookup_insert_eq.
  - by rewrite lookup_insert_ne.
Qed.

End InOutFacts.

Section InOutClaims.
Import InOut.
Context {E : Type} `{Countable E}.
Implicit Types (self : InOutPositioner E) (e : E).

(** What [transmission] returns: the ratio recorded for the current state
    through the lists only.  For a state that
    [out_states] mentions it is the [_transmission] value of that name,
    else 1; otherwise, for a state that [in_states] mentions, the
    [_transmission] value of that name, else 0; and NaN for a state in
    neither list, whatever [_transmission] holds for it. *)
Theorem transmission_recorded self :
  transmission self = recorded_ratio self.
Proof.
  unfold transmission, recorded_ratio, _trans_enum. simpl.
  rewrite _extend_trans_enum_lookup.
  destruct (named self _ (out_states self)); [done|].
  rewrite _extend_trans_enum_lookup.
  by destruct (named self _ (in_states self)).
Qed.

(** Without aliases (distinct names are distinct states) the recorded
    ratio reads on names: *)
Lemma named_inj self (l : list string) p :
  Inj (=) (=) (get_state self) →
  named self (get_state self p) l = if bool_decide (p ∈ l) then Some p else None.
Proof.
  intros Hinj. induction l as [|s l IH] using rev_ind.
  - by rewrite bool_decide_eq_false_2 by apply not_elem_of_nil.
  - rewrite named_snoc, IH. destruct (decide _) as [Heq|Hne].
    + apply Hinj in Heq as ->.
      rewrite (bool_decide_eq_true_2 (p ∈ l ++ [p])); [done|].
      apply elem_of_app. right. by left.
    + assert (s ≠ p) by congruence.
      rewrite (bool_decide_ext (p ∈ l ++ [s]) (p ∈ l)); [done|].
      rewrite elem_of_app, list_elem_of_singleton. intuition congruence.
Qed.

Lemma transmission_by_name self :
  Inj (=) (=) (get_state self) →
  transmission self =
  let p := position self in
  if bool_decide (p ∈ out_states self)
  then default (PyInt 1) (_transmission self !! p)
  else if bool_decide (p ∈ in_states self)
  then default (PyInt 0) (_transmission self !! p)
  else PyNaN.
Proof.
  intros Hinj. unfold transmission, _trans_enum. simpl.
  rewrite !_extend_trans_enum_lookup, !named_inj by done.
  by repeat case_bool_decide.
Qed.

(** C9: on a device whose current state is one of the [out_states], the
    first or any other, [remove] returns a [NullStatus] without calling
    [move], so the device is as before whatever [move] would do; and
    [remove] calls [move] only on a device that is not removed, with
    [out_states[0]] as its target. *)
Theorem remove_removed_is_noop self :
  ((∃ s, s ∈ out_states self ∧
         get_state self s = get_state self (position self)) →
   remove self = NullStatus ∧
   ∀ move, run move self (remove self) = self)
  ∧ (∀ target, remove self = Move target →
       removed self = false ∧ out_states self !! 0%nat = Some target).
Proof.
  split.
  - intros Hout. apply removed_spec in Hout. unfold remove. by rewrite Hout.
  - intros target. unfold remove. destruct (removed self); [done|].
    destruct (out_states self); [done|]. by intros [= ->].
Qed.

End InOutClaims.

(** C4 at a device whose state MID has the [_transmission] entry 0.5 and
    is in neither list: [transmission] is NaN there, not the entry the
    claim and the class docstring (a mapping from each state to its
    ratio, NaN being a default) give. *)
Lemma transmission_spec_fails :
  InOut.transmission (Examples.mid_device "MID") = PyNaN ∧
  InOut.transmission_spec (Examples.mid_device "MID") = PyFloat (1 # 2) ∧
  InOut.transmission (Examples.mid_device "MID")
  ≠ InOut.transmission_spec (Examples.mid_device "MID").
Proof. vm_compute. repeat split; discriminate. Qed.

(** The Dectris at OUTLOW, its second out state, is left alone. *)
Lemma remove_removed_is_noop_witness :
  InOut.remove (Lodcm.Dectris id "OUTLOW") = InOut.NullStatus ∧
  ∀ move, InOut.run move (Lodcm.Dectris id "OUTLOW")
            (InOut.remove (Lodcm.Dectris id "OUTLOW"))
          = Lodcm.Dectris id "OUTLOW".
Proof.
  apply (proj1 (remove_removed_is_noop (Lodcm.Dectris id "OUTLOW"))).
  exists "OUTLOW". split; [|reflexivity].
  right. left.
Defined.

(** ** The foil and the LODCM *)

Section LodcmClaims.
Import InOut Lodcm.
Context {E : Type} `{Countable E}.
Implicit Types (self : LODCM E).

(** C10, as the code has it: a [Foil] whose prefix names neither XPP nor
    XCS has no in states; its [states_list] is the [['OUT']] that
    [Foil.__init__] assigns with the unknown state put in front by the
    inherited initialiser, [['Unknown', 'OUT']]; whatever it reads, it is
    never inserted, and [insert] raises [IndexError] on [in_states[0]]. *)
Theorem Foil_without_hutch (prefix : string) (get_state : string -> E)
    (position : string) :
  contains "XPP" prefix = false →
  contains "XCS" prefix = false →
  let foil := Foil prefix get_state position in
  in_states foil = [] ∧
  states_list foil = StatePositioner_init ["OUT"] ∧
  states_list foil = ["Unknown"; "OUT"] ∧
  inserted foil = false ∧ insert foil = Raise IndexError.
Proof.
  intros Hxpp Hxcs.
  unfold Foil, Foil_in_states, StatePositioner_init, inserted, insert. simpl.
  by rewrite Hxpp, Hxcs.
Qed.

(** The branches of [destination] that return one of the lines as it is. *)
Lemma destination_cases self :
  let p := position (h1n self) in
  (p = "OUT" → destination self = str_list (main_line self)) ∧
  (p = "Si" → _dia_clear self = true →
   destination self = str_list (mono_line self)) ∧
  (p = "C" → _dia_clear self = false →
   destination self = str_list (main_line self)) ∧
  (p ≠ "OUT" → p ≠ "C" → (p ≠ "Si" ∨ _dia_clear self = false) →
   destination self = PList []).
Proof.
  unfold destination. simpl. repeat split.
  - by intros ->.
  - by intros -> ->.
  - by intros -> ->.
  - intros Hout Hc Hsi.
    apply String.eqb_neq in Hout, Hc. rewrite Hout, Hc.
    destruct Hsi as [Hsi| ->].
    + apply String.eqb_neq in Hsi. by rewrite Hsi.
    + by rewrite andb_false_r.
Qed.

(** With clear diagnostics and H1N at C, the result has one element per
    line, each of them a list: the lines are not concatenated. *)
Lemma destination_both self :
  position (h1n self) = "C" → _dia_clear self = true →
  destination self =
  PList [str_list (mono_line self); str_list (main_line self)].
Proof. unfold destination. by intros -> ->. Qed.

(** C8: [_dia_clear] does not read the diode, so two LODCMs that differ
    in the diode only have the same [_dia_clear] and the same
    [destination]; [remove_dia] all the same sends the diode's [remove]
    as its third request. *)
Theorem destination_ignores_diode self (d1 d2 : InOutPositioner E) :
  _dia_clear (with_diode self d1) = _dia_clear (with_diode self d2) ∧
  _dia_clear self =
    removed (yag self) && removed (dectris self) && removed (foil self) ∧
  destination (with_diode self d1) = destination (with_diode self d2) ∧
  remove_dia (with_diode self d1) !! 2%nat = Some (remove d1).
Proof.
  repeat split. unfold _dia_clear. simpl.
  by rewrite andb_true_r, andb_assoc.
Qed.

End LodcmClaims.

Lemma Foil_without_hutch_witness :
  InOut.in_states (Lodcm.Foil "TST:LODCM:FOIL" id "OUT") = [] ∧
  InOut.states_list (Lodcm.Foil "TST:LODCM:FOIL" id "OUT")
  = Lodcm.StatePositioner_init ["OUT"] ∧
  InOut.states_list (Lodcm.Foil "TST:LODCM:FOIL" id "OUT")
  = ["Unknown"; "OUT"] ∧
  InOut.inserted (Lodcm.Foil "TST:LODCM:FOIL" id "OUT") = false ∧
  InOut.insert (Lodcm.Foil "TST:LODCM:FOIL" id "OUT")
  = InOut.Raise IndexError.
Proof.
  apply (Foil_without_hutch "TST:LODCM:FOIL" id "OUT"); reflexivity.
Defined.

(** C10 as stated fails: for the prefix TST:LODCM:FOIL, which names
    neither hutch, the constructed device lists the unknown state before
    OUT, so its [states_list] is not exactly [['OUT']]. *)
Lemma Foil_states_list_not_OUT :
  contains "XPP" "TST:LODCM:FOIL" = false ∧
  contains "XCS" "TST:LODCM:FOIL" = false ∧
  InOut.states_list (Lodcm.Foil "TST:LODCM:FOIL" id "OUT")
  = ["Unknown"; "OUT"] ∧
  InOut.states_list (Lodcm.Foil "TST:LODCM:FOIL" id "OUT") ≠ ["OUT"].
Proof. split_and!; [reflexivity | reflexivity | reflexivity | discriminate]. Qed.

(** C1 at the default LODCM with H1N at C and every diagnostic out: the
    code returns the list of the two lines, [[['MONO'], ['MAIN']]], not the
    flat list [['MONO', 'MAIN']] of their names. *)
Theorem destination_both_is_nested :
  Lodcm._dia_clear (Lodcm.default_lodcm "C" "OUT" "OUT" "OUT" "OUT") = true ∧
  Lodcm.destination (Lodcm.default_lodcm "C" "OUT" "OUT" "OUT" "OUT")
  = PList [PList [PStr "MONO"]; PList [PStr "MAIN"]] ∧
  Lodcm.destination (Lodcm.default_lodcm "C" "OUT" "OUT" "OUT" "OUT")
  ≠ str_list (["MONO"] ++ ["MAIN"]).
Proof. vm_compute. repeat split. discriminate. Qed.

(** ** State aggregation *)

Section PVStateFacts.
Import State.
Implicit Types (items : list (string * gmap pv_value string)).

Lemma truthy_Some (e : string) : e ≠ "" → truthy (Some e) = true.
Proof. intros He. simpl. by apply String.eqb_neq in He as ->. Qed.

Lemma entries_of_cons sg state info items :
  entries_of sg ((state, info) :: items) =
  info !! sg state :: entries_of sg items.
Proof. done. Qed.

Lemma non_defer_defer es : non_defer (Some "defer" :: es) = non_defer es.
Proof. done. Qed.

Lemma non_defer_Some e es :
  e ≠ "defer" → non_defer (Some e :: es) = e :: non_defer es.
Proof.
  intros He. unfold non_defer. simpl. rewrite filter_cons.
  by destruct (decide (e ≠ "defer")).
Qed.

(** The loop once a state has been taken: it keeps that state as long as
    every further signal defers or agrees. *)
Lemma value_loop_Some sg items (e0 : string) :
  e0 ≠ "" →
  value_loop sg items (Some e0) =
  if bool_decide ((None ∉ entries_of sg items) ∧
                  Forall (eq e0) (non_defer (entries_of sg items)))
  then Some e0 else Some "unknown".
Proof.
  intros He0. induction items as [|[state info] items IH].
  - case_bool_decide as Hd; [done|]. destruct Hd.
    split; [apply not_elem_of_nil | constructor].
  - rewrite entries_of_cons. cbn [value_loop].
    destruct (info !! sg state) as [e|] eqn:He.
    + destruct (String.eqb_spec e "defer") as [->|Hd]; cbn [negb].
      * rewrite IH, non_defer_defer.
        apply (f_equal (fun b : bool => if b then _ else _)).
        apply bool_decide_ext. rewrite not_elem_of_cons. intuition (subst; auto; congruence).
      * rewrite (truthy_Some e0 He0), non_defer_Some by done.
        destruct (decide (e = e0)) as [->|Hne].
        -- rewrite (bool_decide_eq_true_2 (Some e0 = Some e0)) by done.
           cbn [negb andb]. rewrite IH.
           apply (f_equal (fun b : bool => if b then _ else _)).
           apply bool_decide_ext.
           rewrite not_elem_of_cons, Forall_cons. intuition (subst; auto; congruence).
        -- rewrite (bool_decide_eq_false_2 (Some e = Some e0)) by congruence.
           cbn [negb andb]. rewrite bool_decide_eq_false_2; [done|].
           rewrite Forall_cons. intros [_ [Heq _]]. congruence.
    + rewrite bool_decide_eq_false_2; [done|].
      intros [Hn _]. apply Hn. left.
Qed.

(** The loop before any state has been taken. *)
Lemma value_loop_None sg items :
  (∀ e, Some e ∈ entries_of sg items → e ≠ "") →
  value_loop sg items None =
  if bool_decide (None ∈ entries_of sg items) then Some "unknown"
  else match non_defer (entries_of sg items) with
       | [] => None
       | e :: rest =>
           if bool_decide (Forall (eq e) rest) then Some e else Some "unknown"
       end.
Proof.
  induction items as [|[state info] items IH]; intros Hne.
  - case_bool_decide as Hd; [|done]. by apply not_elem_of_nil in Hd.
  - rewrite entries_of_cons in *. cbn [value_loop].
    destruct (info !! sg state) as [e|] eqn:He.
    + assert (e ≠ "") as Hnz by (apply Hne; left).
      assert (∀ e', Some e' ∈ entries_of sg items → e' ≠ "") as Hne'
        by (intros e' ?; apply Hne; by right).
      rewrite (bool_decide_ext (None ∈ Some e :: entries_of sg items)
                 (None ∈ entries_of sg items))
        by (rewrite elem_of_cons; intuition (subst; auto; congruence)).
      destruct (String.eqb_spec e "defer") as [->|Hd]; cbn [negb truthy andb].
      * by rewrite IH, non_defer_defer.
      * rewrite value_loop_Some, non_defer_Some by done.
        repeat case_bool_decide; intuition (subst; auto; congruence).
    + rewrite bool_decide_eq_true_2; [done | left].
Qed.

Lemma non_defer_elem (e : string) es : e ∈ non_defer es → Some e ∈ es.
Proof.
  unfold non_defer. rewrite list_elem_of_filter, list_elem_of_omap.
  intros (_ & [e'|] & Hin & Heq); simpl in Heq; congruence.
Qed.

(** C2, as the code has it: provided no signal selects the empty string
    as its table entry, [value] aggregates the readbacks in table order as
    worded: deferring signals are skipped, the entry of the others is the
    result, and the result is 'unknown' when a readback has no entry,
    when two signals select different entries, or when all defer. *)
Theorem value_aggregates (self : PVState) :
  (∀ e, Some e ∈ entries self → e ≠ "") → value self = value_spec self.
Proof.
  intros Hne. unfold value, value_spec, entries in *.
  rewrite value_loop_None by done.
  case_bool_decide; [done|].
  destruct (non_defer _) as [|e rest] eqn:Hnd; [done|].
  assert (e ≠ "") as He.
  { apply Hne, non_defer_elem. rewrite Hnd. left. }
  case_bool_decide; [|done].
  by rewrite (truthy_Some e He).
Qed.

End PVStateFacts.

Lemma value_aggregates_witness :
  State.value (Examples.limits_device 0 1) = "out" ∧
  State.value_spec (Examples.limits_device 0 1) = "out".
Proof.
  assert (State.value_spec (Examples.limits_device 0 1) = "out") as Hs
    by (vm_compute; reflexivity).
  split; [|exact Hs]. rewrite <- Hs.
  apply (value_aggregates (Examples.limits_device 0 1)).
  intros e He. vm_compute in He.
  apply elem_of_cons in He as [[= ->]|He]; [done|].
  apply elem_of_cons in He as [[= ->]|He]; [done|].
  by apply elem_of_nil in He.
Defined.

(** C2 as stated fails on an empty-string entry: [limit_in] selects [''],
    [limit_out] selects ['out'], two different non-defer entries, and
    [value] is ['out'], not ['unknown']. *)
Lemma value_spec_fails :
  State.entries (Examples.blank_device 0 1) = [Some ""; Some "out"] ∧
  State.value (Examples.blank_device 0 1) = "out" ∧
  State.value_spec (Examples.blank_device 0 1) = "unknown" ∧
  State.value (Examples.blank_device 0 1)
  ≠ State.value_spec (Examples.blank_device 0 1).
Proof. vm_compute. repeat split; discriminate. Qed.

(** ** Status objects *)

Section StatusFacts.
Import State.
Variables (i : nat) (d : string).
Implicit Types (w : world) (fin : bool).

Lemma check_value_frame w j :
  dev_value (check_value w j) = dev_value w ∧
  _prev_value (check_value w j) = _prev_value w.
Proof.
  unfold check_value. destruct (statuses w !! j); [|done].
  by destruct (check_state w _).
Qed.

Lemma watching_finished w fin j :
  watching i d fin w →
  watching i d (if decide (j = i) then true else fin) (_finished w j true).
Proof.
  intros (st & Hst & Hd & Hdone & Hsucc & Hsub).
  destruct (decide (j = i)) as [->|Hne].
  - eexists. split_and!; simpl.
    + by rewrite list_lookup_alter_eq, Hst.
    + done.
    + done.
    + done.
    + apply bool_decide_eq_false_2.
      rewrite list_elem_of_filter. tauto.
  - exists st. split_and!; simpl; try done.
    + by rewrite list_lookup_alter_ne.
    + rewrite <- Hsub. apply bool_decide_ext.
      rewrite list_elem_of_filter. intuition congruence.
Qed.

Lemma watching_check_other w fin j :
  j ≠ i → watching i d fin w → watching i d fin (check_value w j).
Proof.
  intros Hne Hw. unfold check_value.
  destruct (statuses w !! j); [|done].
  destruct (check_state w _); [|done].
  apply (watching_finished w fin j) in Hw.
  by destruct (decide (j = i)).
Qed.

Lemma watching_check_self w fin :
  watching i d fin w →
  watching i d (fin || String.eqb (dev_value w) d) (check_value w i).
Proof.
  intros Hw. pose proof Hw as (st & Hst & Hd & Hdone & _).
  unfold check_value, check_state. rewrite Hst, Hd.
  destruct (String.eqb (dev_value w) d).
  - apply (watching_finished w fin i) in Hw.
    destruct (decide (i = i)); [|done]. by rewrite orb_true_r.
  - by rewrite orb_false_r.
Qed.

(** A notification delivered to the callbacks [l]: status [i] is checked
    when it is among them. *)
Lemma watching_foldl (l : list nat) w fin :
  watching i d fin w →
  watching i d (fin || (bool_decide (i ∈ l) && String.eqb (dev_value w) d))
           (foldl check_value w l) ∧
  dev_value (foldl check_value w l) = dev_value w ∧
  _prev_value (foldl check_value w l) = _prev_value w.
Proof.
  revert w fin. induction l as [|j l IH]; intros w fin Hw.
  - simpl. by rewrite orb_false_r.
  - simpl. destruct (check_value_frame w j) as [Hv Hp].
    destruct (decide (j = i)) as [->|Hne].
    + apply watching_check_self in Hw. apply IH in Hw as (Hw & -> & ->).
      rewrite Hv in Hw. repeat split; try done.
      rewrite (bool_decide_eq_true_2 (i ∈ i :: l)) by left.
      destruct fin, (String.eqb (dev_value w) d), (bool_decide (i ∈ l));
        simpl in *; done.
    + apply (watching_check_other w fin j Hne) in Hw.
      apply IH in Hw as (Hw & -> & ->). rewrite Hv in Hw.
      repeat split; try done.
      rewrite (bool_decide_ext (i ∈ j :: l) (i ∈ l)); [done|].
      rewrite elem_of_cons. intuition congruence.
Qed.

Lemma watching_update w fin v :
  watching i d fin w →
  watching i d
    (fin || (bool_decide (Some v ≠ _prev_value w) && String.eqb v d))
    (_update w v) ∧
  dev_value (_update w v) = v ∧
  _prev_value (_update w v) =
    (if bool_decide (Some v ≠ _prev_value w) then Some v else _prev_value w).
Proof.
  intros Hw. unfold _update. simpl.
  set (w1 := {| dev_value := v; _prev_value := _prev_value w;
                subs := subs w; statuses := statuses w |}).
  assert (watching i d fin w1) as Hw1 by exact Hw.
  case_bool_decide as Hch; simpl.
  - destruct (watching_foldl (subs w1) w1 fin Hw1) as (Hf & Hv & Hp).
    unfold _run_subs. simpl in *. rewrite Hv. repeat split; try done.
    destruct Hw as (_ & _ & _ & _ & _ & Hmem). rewrite Hmem in Hf.
    replace (fin || negb fin && String.eqb v d)
      with (fin || String.eqb v d) in Hf by (by destruct fin).
    exact Hf.
  - by rewrite orb_false_r.
Qed.

Lemma new_StateStatus_frame w d' :
  dev_value (fst (new_StateStatus w d')) = dev_value w ∧
  _prev_value (fst (new_StateStatus w d')) = _prev_value w.
Proof.
  unfold new_StateStatus. simpl.
  set (w' := {| dev_value := dev_value w; _prev_value := _prev_value w;
                subs := _; statuses := _ |}).
  apply (check_value_frame w').
Qed.

Lemma watching_new w :
  i = length (statuses w) →
  watching i d (String.eqb (dev_value w) d) (fst (new_StateStatus w d)).
Proof.
  intros Hi. unfold new_StateStatus. simpl. rewrite <- Hi.
  set (w' := {| dev_value := dev_value w; _prev_value := _prev_value w;
                subs := subs w ++ [i]; statuses := statuses w ++ _ |}).
  assert (watching i d false w') as Hw'.
  { eexists. split_and!; simpl.
    - rewrite Hi. by rewrite list_lookup_middle.
    - done.
    - done.
    - done.
    - apply bool_decide_eq_true_2, elem_of_app. right. left. }
  by apply watching_check_self in Hw'.
Qed.

Lemma watching_create w fin d' :
  watching i d fin w →
  watching i d fin (fst (new_StateStatus w d')) ∧
  dev_value (fst (new_StateStatus w d')) = dev_value w ∧
  _prev_value (fst (new_StateStatus w d')) = _prev_value w.
Proof.
  intros (st & Hst & Hd & Hdone & Hsucc & Hsub).
  pose proof (lookup_lt_Some _ _ _ Hst) as Hlt.
  unfold new_StateStatus. simpl.
  set (w' := {| dev_value := dev_value w; _prev_value := _prev_value w;
                subs := subs w ++ [length (statuses w)];
                statuses := statuses w ++ _ |}).
  split; [|apply new_StateStatus_frame].
  apply watching_check_other; [lia|].
  exists st. split_and!; simpl; try done.
  - by rewrite lookup_app_l.
  - rewrite <- Hsub. apply bool_decide_ext.
    rewrite elem_of_app, list_elem_of_singleton. intuition lia.
Qed.

(** Over a run: the status is finished exactly when a notification since
    carried the desired value (or it was finished before). *)
Lemma watching_steps (es : list event) w fin :
  watching i d fin w →
  watching i d
    (fin || existsb (fun v => String.eqb v d) (notified (_prev_value w) es))
    (steps w es).
Proof.
  revert w fin. induction es as [|[d'|v] es IH]; intros w fin Hw.
  - simpl. by rewrite orb_false_r.
  - simpl. apply (watching_create w fin d') in Hw as (Hw & _ & Hp).
    apply IH in Hw. by rewrite Hp in Hw.
  - simpl. apply (watching_update w fin v) in Hw as (Hw & _ & Hp).
    apply IH in Hw. rewrite Hp in Hw.
    case_bool_decide; simpl in *.
    + by rewrite orb_assoc.
    + by rewrite orb_false_r in Hw.
Qed.

End StatusFacts.

(** C7: a [StateStatus] created for [desired] on a device (whatever
    statuses watch it already) and followed through any run of further
    creations and updates is finished exactly when the value equalled
    [desired] at its creation or at a state-change notification since;
    it is then finished with success, and its check is subscribed exactly
    as long as it is not finished. *)
Theorem StateStatus_finished_iff_seen (w0 : State.world) (desired : string)
    (es : list State.event) :
  let w1 := fst (State.new_StateStatus w0 desired) in
  let id := snd (State.new_StateStatus w0 desired) in
  let w2 := State.steps w1 es in
  ∃ st, State.statuses w2 !! id = Some st ∧
        State.desired_state st = desired ∧
        State.done st =
          existsb (fun v => String.eqb v desired)
                  (State.dev_value w0 ::
                   State.notified (State._prev_value w0) es) ∧
        State.success st = State.done st ∧
        bool_decide (id ∈ State.subs w2) = negb (State.done st).
Proof.
  intros w1 id w2.
  pose proof (watching_new id desired w0 eq_refl) as Hw.
  apply (watching_steps id desired es) in Hw.
  destruct (new_StateStatus_frame w0 desired) as [_ Hp].
  rewrite Hp in Hw. destruct Hw as (st & Hst & Hd & Hdone & Hsucc & Hsub).
  exists st. simpl. split_and!; try done.
  - by rewrite Hdone.
  - by rewrite Hdone.
Qed.

(** ** The table driven LODCM *)

Section EpicsLodcmFacts.
Import State EpicsLodcm.

Lemma index_crystals (x : string) :
  (x = "OUT" ∧ index crystals x = Some 0%nat) ∨
  (x = "C" ∧ index crystals x = Some 1%nat) ∨
  (x = "Si" ∧ index crystals x = Some 2%nat) ∨
  ((x ∉ crystals) ∧ index crystals x = None).
Proof.
  unfold crystals. cbn [index].
  destruct (String.eqb_spec "OUT" x) as [<-|Ho]; [by left|].
  destruct (String.eqb_spec "C" x) as [<-|Hc]; [right; by left|].
  destruct (String.eqb_spec "Si" x) as [<-|Hs]; [right; right; by left|].
  right. right. right. split; [|done].
  rewrite !elem_of_cons, elem_of_nil. intuition congruence.
Qed.

Lemma crystals_elem (x : string) :
  x ∈ crystals ↔ x = "OUT" ∨ x = "C" ∨ x = "Si".
Proof.
  unfold crystals. rewrite !elem_of_cons, elem_of_nil. tauto.
Qed.

(** C3: [destination] is a lookup over the two state values.  On the main
    line (the default) it is the entry of [main_table] at the positions of
    h1n and h2n among OUT, C, Si: BOTH exactly when both are C, MONO
    exactly when both are Si, BLOCKED when h1n is Si and h2n is another of
    the three (and then only); and UNKNOWN when either value is none of
    the three.  On
    the mono line it is MONO for h2n at OUT, BLOCKED for h2n at C or Si,
    UNKNOWN otherwise. *)
Theorem destination_by_table (self : LODCM) :
  let h1 := h1n_state self in
  let h2 := h2n_state self in
  let main := destination self (Some (PVStr "MAIN")) in
  let mono := destination self (Some (PVStr "MONO")) in
  destination self None = main ∧
  (∀ n1 n2, index crystals h1 = Some n1 → index crystals h2 = Some n2 →
     ∃ s, main_table !! n1 ≫= (fun row => row !! n2) = Some s ∧
          main = Return s) ∧
  (main = Return "BOTH" ↔ h1 = "C" ∧ h2 = "C") ∧
  (main = Return "MONO" ↔ h1 = "Si" ∧ h2 = "Si") ∧
  (h1 = "Si" → h2 ∈ crystals → h2 ≠ "Si" → main = Return "BLOCKED") ∧
  (main = Return "BLOCKED" ↔ h1 = "Si" ∧ (h2 = "OUT" ∨ h2 = "C")) ∧
  ((h1 ∉ crystals) ∨ (h2 ∉ crystals) → main = Return "UNKNOWN") ∧
  (h2 = "OUT" → mono = Return "MONO") ∧
  (h2 = "C" ∨ h2 = "Si" → mono = Return "BLOCKED") ∧
  (h2 ∉ crystals → mono = Return "UNKNOWN").
Proof.
  destruct self as [h1 h2]. unfold destination.
  change (by_name (PVStr "MAIN")) with (Some MAIN).
  change (by_name (PVStr "MONO")) with (Some MONO).
  cbn [h1n_state h2n_state].
  destruct (index_crystals h1) as [[-> E1]|[[-> E1]|[[-> E1]|[Hn1 E1]]]];
    destruct (index_crystals h2) as [[-> E2]|[[-> E2]|[[-> E2]|[Hn2 E2]]]];
    rewrite ?E1, ?E2; rewrite ?crystals_elem in *; simpl;
    (split_and!;
     [ done
     | intros n1 n2 ? ?; simplify_eq; simpl; eauto
     | split; [intros ?; simplify_eq | intros [? ?]; simplify_eq]; tauto
     | split; [intros ?; simplify_eq | intros [? ?]; simplify_eq]; tauto
     | intros; simplify_eq; try done; tauto
     | split; [intros ?; simplify_eq; tauto
              | intros [? [?|?]]; simplify_eq; done]
     | intros [?|?]; simplify_eq; try done; tauto
     | intros; simplify_eq; try done
     | intros [?|?]; simplify_eq; try done
     | intros; simplify_eq; try done; tauto ]).
Qed.

End EpicsLodcmFacts.

Lemma destination_by_table_witness :
  EpicsLodcm.destination
    {| EpicsLodcm.h1n_state := "Si"; EpicsLodcm.h2n_state := "C" |}
    (Some (State.PVStr "MAIN"))
  = EpicsLodcm.Return "BLOCKED".
Proof.
  apply (proj1 (proj2 (proj2 (proj2 (proj2
    (destination_by_table
       {| EpicsLodcm.h1n_state := "Si"; EpicsLodcm.h2n_state := "C" |})))))).
  - reflexivity.
  - right. left.
  - discriminate.
Defined.

(** ** Motors *)

Section MotorFacts.
Import State Motor.
Implicit Types (self : PCDSMotorBase) (value : Q).

Lemma in_Stop (v : pv_value) :
  in_ v [PVInt 0; PVStr "Stop"] = true ↔ reads Stop v.
Proof.
  unfold in_, reads. rewrite bool_decide_eq_true, !elem_of_cons, elem_of_nil.
  simpl. tauto.
Qed.

Lemma in_Pause (v : pv_value) :
  in_ v [PVInt 1; PVStr "Pause"] = true ↔ reads Pause v.
Proof.
  unfold in_, reads. rewrite bool_decide_eq_true, !elem_of_cons, elem_of_nil.
  simpl. tauto.
Qed.

Lemma within_limits self value :
  Qle_bool (low_soft_limit self) value && Qle_bool value (high_soft_limit self)
  = true ↔
  (low_soft_limit self <= value)%Q ∧ (value <= high_soft_limit self)%Q.
Proof. by rewrite andb_true_iff, !Qle_bool_iff. Qed.

(** A reading of the field that shows neither Stop nor Pause shows Go. *)
Lemma reads_Go (v : pv_value) :
  (∃ s, reads s v) → ¬ reads Stop v → ¬ reads Pause v → reads Go v.
Proof. intros [[] Hs]; tauto. Qed.

(** C5, as the code has it: [check_value] raises whenever the motor is
    disabled or SPG reads Stop or Pause.  The checks run in order, so it
    raises [LimitError] exactly when the framework's check raises it, or
    that check passes, the motor is enabled, SPG reads neither Stop nor
    Pause, and the value is outside the closed interval of the soft
    limits.  It returns only when (and whenever) the framework's check
    passes, the motor is enabled, SPG reads neither Stop nor Pause, and
    the value is within the limits; SPG then reads Go if it reads one of
    the three states of the field at all. *)
Theorem check_value_guards (super_check_value : Q → option exn) self value :
  (disabled self = 1%Z ∨ reads Stop (motor_spg self)
   ∨ reads Pause (motor_spg self) →
   check_value super_check_value self value ≠ None)
  ∧ (check_value super_check_value self value = Some LimitError ↔
     super_check_value value = Some LimitError ∨
     (super_check_value value = None ∧
      disabled self ≠ 1%Z ∧ ¬ reads Stop (motor_spg self) ∧
      ¬ reads Pause (motor_spg self) ∧
      ¬ ((low_soft_limit self <= value)%Q ∧
         (value <= high_soft_limit self)%Q)))
  ∧ (check_value super_check_value self value = None ↔
     super_check_value value = None ∧
     disabled self ≠ 1%Z ∧ ¬ reads Stop (motor_spg self) ∧
     ¬ reads Pause (motor_spg self) ∧
     (low_soft_limit self <= value)%Q ∧ (value <= high_soft_limit self)%Q)
  ∧ (check_value super_check_value self value = None →
     (∃ s, reads s (motor_spg self)) → reads Go (motor_spg self)).
Proof.
  unfold check_value, limits.
  pose proof (in_Stop (motor_spg self)) as Hstop.
  pose proof (in_Pause (motor_spg self)) as Hpause.
  pose proof (within_limits self value) as Hlim.
  pose proof (reads_Go (motor_spg self)) as Hgo.
  destruct (super_check_value value) as [e|].
  { split_and!; [done | | | done].
    - split; [intros [= ->]; by left | intros [[= ->]|[? _]]; done].
    - split; [done | by intros [? _]]. }
  destruct (Z.eqb_spec (disabled self) 1) as [Hdis|Hen].
  { split_and!; [done | | | done].
    - split; [done | intros [?|?]; [done | tauto]].
    - split; [done | tauto]. }
  destruct (in_ (motor_spg self) [PVInt 0; PVStr "Stop"]).
  { split_and!; [done | | | done].
    - split; [done | intros [?|?]; [done | tauto]].
    - split; [done | tauto]. }
  destruct (in_ (motor_spg self) [PVInt 1; PVStr "Pause"]).
  { split_and!; [done | | | done].
    - split; [done | intros [?|?]; [done | tauto]].
    - split; [done | tauto]. }
  assert (¬ reads Stop (motor_spg self)) as Hns by (rewrite <- Hstop; done).
  assert (¬ reads Pause (motor_spg self)) as Hnp by (rewrite <- Hpause; done).
  destruct (Qle_bool _ value && Qle_bool value _); simpl.
  - split_and!; [tauto | | | ].
    + split; [done | intros [?|?]; [done | tauto]].
    + split; [intros _; tauto | done].
    + intros _ Hvalid. by apply Hgo.
  - assert (¬ ((low_soft_limit self <= value)%Q ∧
               (value <= high_soft_limit self)%Q)) as Hout
      by (rewrite <- Hlim; done).
    split_and!; [tauto | | | done].
    + split; [intros _; right; tauto | done].
    + split; [done | tauto].
Qed.

End MotorFacts.

(** C5 as stated fails: a disabled motor asked for a value beyond its
    limits raises the plain exception of the first guard, not
    [LimitError]. *)
Lemma LimitError_not_exact :
  ¬ ((Motor.low_soft_limit (Examples.motor 1 (State.PVInt 2)) <= 11)%Q ∧
     (11 <= Motor.high_soft_limit (Examples.motor 1 (State.PVInt 2)))%Q) ∧
  Motor.check_value Examples.accept (Examples.motor 1 (State.PVInt 2)) 11
  = Some (Exception "Motor is not enabled. Motion requests ignored") ∧
  Motor.check_value Examples.accept (Examples.motor 1 (State.PVInt 2)) 11
  ≠ Some LimitError.
Proof.
  split_and!.
  - intros [_ Hle]. by vm_compute in Hle.
  - reflexivity.
  - discriminate.
Qed.

Lemma check_value_guards_witness :
  Motor.check_value Examples.accept (Examples.motor 0 (State.PVInt 2)) 11
  = Some LimitError.
Proof.
  apply (proj1 (proj2 (check_value_guards Examples.accept
                         (Examples.motor 0 (State.PVInt 2)) 11))).
  right. split_and!.
  - reflexivity.
  - simpl. lia.
  - intros [?|?]; discriminate.
  - intros [?|?]; discriminate.
  - intros [_ Hle]. by vm_compute in Hle.
Defined.

(** The code never tests for Go: a field that reads none of its three
    states lets the value through. *)
Lemma check_value_unlisted_spg :
  Motor.check_value Examples.accept (Examples.motor 0 (State.PVInt 3)) 5
  = None ∧
  ¬ Motor.reads Motor.Go (State.PVInt 3).
Proof. split; [reflexivity | intros [?|?]; discriminate]. Qed.

Section ImsFacts.
Import State Motor.

Lemma flag_is_cleared_spec (bit mask value : Z) :
  flag_is_cleared bit mask value = true ↔
  Z.land (Z.shiftr value bit) mask = 0%Z.
Proof.
  unfold flag_is_cleared. rewrite negb_involutive. apply Z.eqb_eq.
Qed.

Lemma _bit_flags_lookup (flag : string) :
  flag ∈ ["powerup"; "stall"; "error"] → is_Some (_bit_flags !! flag).
Proof.
  rewrite !elem_of_cons, elem_of_nil.
  intros [->|[->|[->|[]]]]; vm_compute; eexists; reflexivity.
Qed.

(** C6: for each of the three flags, [_clear_flag] looks at the flag's
    readback bits of [bit_status].  When they are clear it puts nothing
    to [seq_seln] and returns a status created done and successful.
    Otherwise it puts the flag's clear code to [seq_seln], once, and what
    it returns (when it was not asked to wait, or the wait returned) is
    a status that is complete exactly when one of the values it was
    checked on has these bits clear. *)
Theorem _clear_flag_spec (status_wait : status → option exn)
    (bit_status : Z) (flag : string) (wait : bool) :
  flag ∈ ["powerup"; "stall"; "error"] →
  ∃ info, _bit_flags !! flag = Some info ∧
    (masked_bits info bit_status = 0%Z →
     _clear_flag status_wait bit_status flag wait =
     {| seq_seln_puts := []; returned := inr (DeviceStatus true true) |}) ∧
    (masked_bits info bit_status ≠ 0%Z →
     ∃ st,
       seq_seln_puts (_clear_flag status_wait bit_status flag wait)
       = [clear info] ∧
       (wait = false ∨ status_wait st = None →
        returned (_clear_flag status_wait bit_status flag wait) = inr st) ∧
       ∀ values, completed st values = true ↔
                 ∃ v, v ∈ values ∧ masked_bits info v = 0%Z).
Proof.
  intros Hflag. destruct (_bit_flags_lookup flag Hflag) as [info Hinfo].
  exists info. split; [done|]. unfold _clear_flag. rewrite Hinfo.
  pose proof (flag_is_cleared_spec (readback info) (default 1%Z (mask info)))
    as Hspec.
  fold (masked_bits info) in Hspec. split.
  - intros Hclear. apply Hspec in Hclear. by rewrite Hclear.
  - intros Hset.
    destruct (flag_is_cleared _ _ bit_status) eqn:Hc.
    { by apply Hspec in Hc. }
    eexists. split_and!.
    + done.
    + simpl. intros [->|Hw]; [done|]. destruct wait; [|done]. by rewrite Hw.
    + intros values. simpl. rewrite existsb_exists.
      split; intros (v & Hin & Hv); exists v.
      * apply list_elem_of_In in Hin. by apply Hspec in Hv.
      * apply list_elem_of_In in Hin. by apply Hspec in Hv.
Qed.

End ImsFacts.

Lemma _clear_flag_spec_witness :
  ∃ info, Motor._bit_flags !! "stall" = Some info ∧
    (Motor.masked_bits info 4194304 = 0%Z →
     Motor._clear_flag Examples.no_timeout 4194304 "stall" false =
     {| Motor.seq_seln_puts := [];
        Motor.returned := inr (Motor.DeviceStatus true true) |}) ∧
    (Motor.masked_bits info 4194304 ≠ 0%Z →
     ∃ st,
       Motor.seq_seln_puts (Motor._clear_flag Examples.no_timeout 4194304 "stall" false)
       = [Motor.clear info] ∧
       (false = false ∨ Examples.no_timeout st = None →
        Motor.returned (Motor._clear_flag Examples.no_timeout 4194304 "stall" false)
        = inr st) ∧
       ∀ values, Motor.completed st values = true ↔
                 ∃ v, v ∈ values ∧ Motor.masked_bits info v = 0%Z).
Proof.
  apply (_clear_flag_spec Examples.no_timeout 4194304 "stall" false).
  right. left.
Defined.

(** * Further properties of the code *)

(** ** In/out positioners: states, ratios and completed moves *)

Section InOutMore.
Import InOut Lodcm Motion.
Context {E : Type} `{Countable E}.
Implicit Types (self : InOutPositioner E) (e : E).

Lemma named_None self e (l : list string) :
  named self e l = None ↔ _pos_in_list_from self e l = false.
Proof.
  unfold named. rewrite last_None. induction l as [|s l IH]; [done|].
  rewrite filter_cons. simpl.
  destruct (decide (get_state self s = e)) as [<-|Hne].
  - destruct (decide (get_state self s = get_state self s)); [|done].
    split; discriminate.
  - destruct (decide (e = get_state self s)); [congruence|]. exact IH.
Qed.

(** X1: [inserted] and [removed] compare enumeration members, not names:
    the device is inserted (removed) exactly when some name of
    [in_states] ([out_states]) denotes the state the device reports. *)
Theorem inserted_removed_denote self :
  (inserted self = true ↔
   ∃ s, s ∈ in_states self ∧
        get_state self s = get_state self (position self)) ∧
  (removed self = true ↔
   ∃ s, s ∈ out_states self ∧
        get_state self s = get_state self (position self)).
Proof. split; apply _pos_in_list_from_spec. Qed.

(** X2: when no in state and out state denote the same member, a device
    is never inserted and removed at once. *)
Theorem inserted_removed_exclusive self :
  (∀ a b, a ∈ in_states self → b ∈ out_states self →
          get_state self a ≠ get_state self b) →
  inserted self && removed self = false.
Proof.
  intros Hdisj. apply andb_false_iff.
  destruct (inserted self) eqn:Hin; [right | by left].
  apply not_true_is_false. intros Hout.
  apply _pos_in_list_from_spec in Hin as (a & Ha & Hae).
  apply _pos_in_list_from_spec in Hout as (b & Hb & Hbe).
  apply (Hdisj a b Ha Hb). congruence.
Qed.

(** X3: without a [_transmission] table the ratio follows the lists: 1
    when removed, else 0 when inserted, else NaN. *)
Theorem transmission_default self :
  _transmission self = ∅ →
  transmission self =
  if removed self then PyInt 1
  else if inserted self then PyInt 0 else PyNaN.
Proof.
  intros Hempty. unfold transmission, _trans_enum, removed, inserted,
    _pos_in_list. simpl.
  rewrite !_extend_trans_enum_lookup, Hempty.
  pose proof (named_None self (get_state self (position self))
                (out_states self)) as Hout.
  pose proof (named_None self (get_state self (position self))
                (in_states self)) as Hin.
  destruct (named self _ (out_states self)) as [s|].
  - destruct (_pos_in_list_from self _ (out_states self));
      [by rewrite lookup_empty | by destruct Hout as [_ Hout]; discriminate Hout].
  - rewrite (proj1 Hout eq_refl).
    destruct (named self _ (in_states self)) as [s|].
    + destruct (_pos_in_list_from self _ (in_states self));
        [by rewrite lookup_empty | by destruct Hin as [_ Hin]; discriminate Hin].
    + by rewrite (proj1 Hin eq_refl).
Qed.

(** X4: whatever the table holds, as long as it holds no NaN, the ratio
    is NaN exactly for a device that is neither inserted nor removed. *)
Theorem transmission_nan_iff self :
  (∀ s, _transmission self !! s ≠ Some PyNaN) →
  transmission self = PyNaN ↔ inserted self = false ∧ removed self = false.
Proof.
  intros Hnan. unfold transmission, _trans_enum, removed, inserted,
    _pos_in_list. simpl.
  rewrite !_extend_trans_enum_lookup, <- !named_None.
  destruct (named self _ (out_states self)) as [s|]; simpl.
  - split; [|by intros [_ ?]].
    intros Heq. specialize (Hnan s).
    by destruct (_transmission self !! s) as [[]|].
  - destruct (named self _ (in_states self)) as [s|]; simpl.
    + split; [|by intros [? _]].
      intros Heq. specialize (Hnan s).
      by destruct (_transmission self !! s) as [[]|].
    + done.
Qed.

Lemma remove_of_removed self : removed self = true → remove self = NullStatus.
Proof. intros Hr. unfold remove. by rewrite Hr. Qed.

Lemma removed_after_remove self :
  out_states self ≠ [] → removed (run arrive self (remove self)) = true.
Proof.
  intros Hne. unfold remove. destruct (removed self) eqn:Hr; [done|].
  destruct (out_states self) as [|first rest] eqn:Hout; [done|].
  simpl. apply _pos_in_list_from_spec. exists first. simpl.
  rewrite Hout. split; [left | done].
Qed.

(** X5: a completed [remove] leaves the device removed, and a completed
    [insert] leaves it inserted, provided the list has a first state;
    removing again then asks for nothing. *)
Theorem remove_insert_complete self :
  (out_states self ≠ [] →
   removed (run arrive self (remove self)) = true ∧
   remove (run arrive self (remove self)) = NullStatus) ∧
  (in_states self ≠ [] →
   inserted (run arrive self (insert self)) = true).
Proof.
  split.
  - intros Hne. pose proof (removed_after_remove self Hne) as Hrem.
    split; [done | by apply remove_of_removed].
  - intros Hne. unfold insert.
    destruct (in_states self) as [|first rest] eqn:Hin; [done|].
    simpl. apply _pos_in_list_from_spec. exists first. simpl.
    rewrite Hin. split; [left | done].
Qed.

Implicit Types (lodcm : LODCM E).

Lemma names_PList (l : list pyval) :
  names (PList l) = concat (names <$> l).
Proof.
  induction l as [|x l IH]; [done|].
  change (names (PList (x :: l))) with (names x ++ names (PList l)).
  by rewrite IH.
Qed.

Lemma names_str_list (l : list string) : names (str_list l) = l.
Proof.
  unfold str_list. rewrite names_PList.
  induction l as [|x l IH]; [done|].
  rewrite !fmap_cons. cbn [concat]. rewrite IH. done.
Qed.

(** X6: with a diagnostic in the beam the mono line stays dark: the
    destination is the main line when H1N is at OUT or C, and nothing
    otherwise. *)
Theorem destination_diagnostics_in lodcm :
  _dia_clear lodcm = false →
  destination lodcm =
  if String.eqb (position (h1n lodcm)) "OUT"
     || String.eqb (position (h1n lodcm)) "C"
  then str_list (main_line lodcm) else PList [].
Proof.
  intros Hdia. unfold destination. rewrite Hdia, andb_false_r.
  destruct (String.eqb (position (h1n lodcm)) "OUT"); [done|].
  by destruct (String.eqb (position (h1n lodcm)) "C").
Qed.

(** X7: every name [destination] reports, at whatever depth of the
    result, is one of the [branches]. *)
Theorem destination_within_branches lodcm (n : string) :
  n ∈ names (destination lodcm) → n ∈ branches lodcm.
Proof.
  unfold destination, branches. rewrite elem_of_app.
  destruct (String.eqb (position (h1n lodcm)) "OUT").
  { rewrite names_str_list. tauto. }
  destruct (String.eqb (position (h1n lodcm)) "Si" && _dia_clear lodcm).
  { rewrite names_str_list. tauto. }
  destruct (String.eqb (position (h1n lodcm)) "C").
  - destruct (_dia_clear lodcm).
    + unfold chain. cbn [concat]. rewrite app_nil_r, names_PList.
      rewrite !fmap_cons, fmap_nil. cbn [concat].
      rewrite !names_str_list, app_nil_r, elem_of_app. tauto.
    + rewrite names_str_list. tauto.
  - simpl. by intros ?%elem_of_nil.
Qed.


(** X9: whatever its prefix, a constructed [Foil] lists the unknown
    state, then OUT, then its in states, without repetition; its only out
    state is OUT; and a prefix naming XPP gets the XPP foils even if it
    names XCS too. *)
Theorem Foil_states (prefix : string) (get_state : string → E)
    (position : string) :
  let foil := Foil prefix get_state position in
  states_list foil = "Unknown" :: "OUT" :: in_states foil ∧
  NoDup (states_list foil) ∧
  out_states foil = ["OUT"] ∧
  (contains "XPP" prefix = true →
   in_states foil = ["Mo"; "Zr"; "Zn"; "Cu"; "Ni"; "Fe"; "Ti"]).
Proof.
  unfold Foil, Foil_in_states, StatePositioner_init. simpl.
  split_and!; [done | | done | by intros ->].
  destruct (contains "XPP" prefix); [|destruct (contains "XCS" prefix)];
    compute_done.
Qed.

End InOutMore.

Lemma inserted_removed_exclusive_witness :
  InOut.inserted (Lodcm.Dectris id "OUTLOW")
  && InOut.removed (Lodcm.Dectris id "OUTLOW") = false.
Proof.
  apply (inserted_removed_exclusive (Lodcm.Dectris id "OUTLOW")).
  simpl. intros a b Ha Hb.
  apply list_elem_of_In in Ha, Hb. simpl in Ha, Hb.
  intuition (subst; discriminate).
Defined.

Lemma transmission_default_witness :
  InOut.transmission (Lodcm.Dectris id "OUTLOW") = PyInt 1.
Proof.
  exact (transmission_default (Lodcm.Dectris id "OUTLOW") eq_refl).
Defined.

Lemma transmission_nan_iff_witness :
  InOut.transmission (Lodcm.H1N id "Unknown") = PyNaN ↔
  InOut.inserted (Lodcm.H1N id "Unknown") = false ∧
  InOut.removed (Lodcm.H1N id "Unknown") = false.
Proof.
  apply (transmission_nan_iff (Lodcm.H1N id "Unknown")).
  intros s Hs. simpl in Hs.
  apply lookup_insert_Some in Hs as [[_ Hs]|[_ Hs]]; [discriminate|].
  apply lookup_singleton_Some in Hs as [_ Hs]. discriminate.
Defined.

Lemma remove_insert_complete_witness :
  InOut.removed
    (InOut.run Motion.arrive (Lodcm.Dectris id "DECTRIS")
       (InOut.remove (Lodcm.Dectris id "DECTRIS"))) = true ∧
  InOut.remove
    (InOut.run Motion.arrive (Lodcm.Dectris id "DECTRIS")
       (InOut.remove (Lodcm.Dectris id "DECTRIS"))) = InOut.NullStatus.
Proof.
  apply (proj1 (remove_insert_complete (Lodcm.Dectris id "DECTRIS"))).
  discriminate.
Defined.

Lemma destination_diagnostics_in_witness :
  Lodcm.destination (Lodcm.default_lodcm "Si" "YAG" "OUT" "OUT" "OUT")
  = PList [].
Proof.
  exact (destination_diagnostics_in
           (Lodcm.default_lodcm "Si" "YAG" "OUT" "OUT" "OUT") eq_refl).
Defined.

Lemma destination_within_branches_witness :
  "MONO" ∈ Motion.branches (Lodcm.default_lodcm "C" "OUT" "OUT" "IN" "OUT").
Proof.
  apply (destination_within_branches
           (Lodcm.default_lodcm "C" "OUT" "OUT" "IN" "OUT") "MONO").
  vm_compute. left.
Defined.


Lemma Foil_states_witness :
  InOut.in_states (Lodcm.Foil "XCS:XPP:FOIL" id "OUT")
  = ["Mo"; "Zr"; "Zn"; "Cu"; "Ni"; "Fe"; "Ti"].
Proof.
  apply (proj2 (proj2 (proj2 (Foil_states "XCS:XPP:FOIL" id "OUT")))).
  reflexivity.
Defined.

(** ** State aggregation: what [value] can be *)

Section PVStateMore.
Import State.
Implicit Types (items : list (string * gmap pv_value string)).

(** What the running [state_value] can be, given the entries [es] of the
    device: nothing yet, ['unknown'], or a selected entry other than
    ['defer']. *)
Lemma value_loop_result sg items (es : list (option string))
    (sv : option string) :
  (∀ x, x ∈ entries_of sg items → x ∈ es) →
  (sv = None ∨ sv = Some "unknown" ∨
   ∃ e, sv = Some e ∧ Some e ∈ es ∧ e ≠ "defer") →
  value_loop sg items sv = None ∨ value_loop sg items sv = Some "unknown" ∨
  ∃ e, value_loop sg items sv = Some e ∧ Some e ∈ es ∧ e ≠ "defer".
Proof.
  revert sv. induction items as [|[state info] items IH]; intros sv Hsub Hsv.
  - exact Hsv.
  - rewrite entries_of_cons in Hsub. cbn [value_loop].
    assert (∀ x, x ∈ entries_of sg items → x ∈ es) as Hsub'
      by (intros x Hx; apply Hsub; by right).
    destruct (info !! sg state) as [e|] eqn:He; [|by right; left].
    assert (Some e ∈ es) as Hin by (apply Hsub; left).
    destruct (String.eqb_spec e "defer") as [->|Hd]; cbn [negb].
    + by apply IH.
    + destruct (truthy sv && negb (bool_decide (Some e = sv)));
        [by right; left|].
      apply IH; [done|]. right. right. by exists e.
Qed.

(** X10: whatever the tables hold, [value] is ['unknown'] or an entry
    that some signal's readback selects, and it is never ['defer'] and
    never the empty string. *)
Theorem value_is_unknown_or_selected (self : PVState) :
  value self = "unknown" ∨
  (Some (value self) ∈ entries self ∧
   value self ≠ "defer" ∧ value self ≠ "").
Proof.
  unfold value.
  destruct (value_loop_result (signal_get self) (_states self)
              (entries self) None) as [Hr|[Hr|(e & Hr & Hin & Hd)]];
    [done | by left | rewrite Hr .. ]; [by left | by left |].
  simpl. destruct (String.eqb_spec e "") as [->|He]; simpl; [by left|].
  right. done.
Qed.

(** The selection of [value_spec] does not depend on the order of the
    non-deferring entries. *)
Lemma agree_Permutation (l l' : list string) :
  l ≡ₚ l' →
  match l with
  | [] => "unknown"
  | e :: rest => if bool_decide (Forall (eq e) rest) then e else "unknown"
  end =
  match l' with
  | [] => "unknown"
  | e :: rest => if bool_decide (Forall (eq e) rest) then e else "unknown"
  end.
Proof.
  intros Hp.
  assert (∀ (k k' : list string) e rest, k ≡ₚ k' → k = e :: rest →
            Forall (eq e) rest → ∃ rest', k' = e :: rest' ∧
                                          Forall (eq e) rest') as Hall.
  { intros k k' e rest Hk -> Hf.
    assert (Forall (eq e) k') as Hk'.
    { rewrite <- Hk. by constructor. }
    destruct k' as [|e' rest'].
    - by apply Permutation_nil_r in Hk.
    - apply Forall_cons in Hk' as [<- ?]. eauto. }
  destruct l as [|e rest], l' as [|e' rest'].
  - done.
  - by apply Permutation_nil_l in Hp.
  - by apply Permutation_nil_r in Hp.
  - repeat case_bool_decide; try done.
    + destruct (Hall _ _ e rest Hp eq_refl) as (r & [= -> ->] & _); done.
    + destruct (Hall _ _ e rest Hp eq_refl) as (r & [= -> ->] & ?); done.
    + symmetry in Hp.
      destruct (Hall _ _ e' rest' Hp eq_refl) as (r & [= -> ->] & ?); done.
Qed.

Lemma value_spec_Permutation (a b : PVState) :
  _states a ≡ₚ _states b → signal_get a = signal_get b →
  value_spec a = value_spec b.
Proof.
  intros Hp Hsg. unfold value_spec, entries. rewrite <- Hsg.
  assert (entries_of (signal_get a) (_states a)
          ≡ₚ entries_of (signal_get a) (_states b)) as Hes
    by (by apply fmap_Permutation).
  rewrite (bool_decide_ext (None ∈ entries_of (signal_get a) (_states a))
             (None ∈ entries_of (signal_get a) (_states b)))
    by (by rewrite Hes).
  case_bool_decide; [done|].
  apply agree_Permutation. unfold non_defer. by rewrite Hes.
Qed.

Lemma value_is_value_spec (self : PVState) :
  (∀ e, Some e ∈ entries self → e ≠ "") → value self = value_spec self.
Proof.
  intros Hne. unfold value, value_spec, entries in *.
  rewrite value_loop_None by done.
  case_bool_decide; [done|].
  destruct (non_defer _) as [|e rest] eqn:Hnd; [done|].
  assert (e ≠ "") as He.
  { apply Hne, non_defer_elem. rewrite Hnd. left. }
  case_bool_decide; [|done].
  by rewrite (truthy_Some e He).
Qed.

(** X11: as long as no readback selects the empty string, the order of
    the state signals in [_states] does not matter to [value]. *)
Theorem value_order_irrelevant (a b : PVState) :
  (∀ e, Some e ∈ entries a → e ≠ "") →
  _states a ≡ₚ _states b → signal_get a = signal_get b →
  value a = value b.
Proof.
  intros Hne Hp Hsg.
  assert (∀ e, Some e ∈ entries b → e ≠ "") as Hne'.
  { intros e He. apply Hne. unfold entries, entries_of in *.
    rewrite Hsg. by rewrite Hp. }
  rewrite (value_is_value_spec a Hne), (value_is_value_spec b Hne').
  by apply value_spec_Permutation.
Qed.

End PVStateMore.

Lemma value_order_irrelevant_witness :
  State.value (Examples.limits_device 0 1)
  = State.value (Examples.swapped_device 0 1).
Proof.
  apply (value_order_irrelevant (Examples.limits_device 0 1)
           (Examples.swapped_device 0 1)).
  - intros e He. vm_compute in He.
    apply elem_of_cons in He as [[= ->]|He]; [done|].
    apply elem_of_cons in He as [[= ->]|He]; [done|].
    by apply elem_of_nil in He.
  - simpl. symmetry. apply reverse_Permutation.
  - reflexivity.
Defined.

(** ** Status objects: notifications and the list of subscriptions *)

Section SubscriptionFacts.
Import State Subscriptions.
Implicit Types (w : world) (sts : list StateStatus).

Lemma foldl_check_value_frame (l : list nat) w :
  dev_value (foldl check_value w l) = dev_value w ∧
  _prev_value (foldl check_value w l) = _prev_value w.
Proof.
  revert w. induction l as [|j l IH]; intros w; [done|]. simpl.
  destruct (IH (check_value w j)) as [-> ->]. apply check_value_frame.
Qed.

(** After [_update] the device reads the value and remembers it. *)
Lemma _update_fields w (v : string) :
  dev_value (_update w v) = v ∧ _prev_value (_update w v) = Some v.
Proof.
  unfold _update. cbn [dev_value _prev_value subs statuses].
  set (w1 := {| dev_value := v; _prev_value := _prev_value w;
                subs := subs w; statuses := statuses w |}).
  case_bool_decide as Hch.
  - destruct (foldl_check_value_frame (subs w1) w1) as [Hv _].
    unfold _run_subs. cbn [dev_value _prev_value]. by rewrite Hv.
  - split; [done|]. cbn [_prev_value].
    by destruct (decide (Some v = _prev_value w)).
Qed.

(** X12: [_update] runs the subscriptions only when the value differs
    from [_prev_value].  However often it is called at the value
    [_prev_value] already holds, no subscription is run: every status and
    the list of subscriptions stay as they were, also a pending status
    that waits for this very value.  So updating twice to the same value
    is updating once. *)
Theorem _update_idempotent w (v : string) :
  _update (_update w v) v = _update w v ∧
  (∀ n, _prev_value w = Some v →
        statuses (steps w (replicate n (Update v))) = statuses w ∧
        subs (steps w (replicate n (Update v))) = subs w).
Proof.
  split.
  - destruct (_update_fields w v) as [Hv Hp].
    destruct (_update w v) as [v' p' subs' sts']. simpl in Hv, Hp. subst.
    unfold _update. cbn [dev_value _prev_value subs statuses].
    by rewrite bool_decide_eq_false_2 by (intros Hne; by apply Hne).
  - intros n. revert w. induction n as [|n IH]; intros w Hp; [done|].
    cbn [replicate]. unfold steps in *. cbn [foldl step].
    assert (_update w v = {| dev_value := v; _prev_value := _prev_value w;
                             subs := subs w; statuses := statuses w |})
      as ->.
    { unfold _update. cbn [dev_value _prev_value subs statuses].
      rewrite bool_decide_eq_false_2; [done|].
      intros Hne. apply Hne. by rewrite Hp. }
    by apply (IH {| dev_value := v; _prev_value := _prev_value w;
                    subs := subs w; statuses := statuses w |}).
Qed.

Lemma pending_from_bounds (k : nat) sts (x : nat) :
  x ∈ pending_from k sts → k ≤ x < k + length sts.
Proof.
  revert k. induction sts as [|st sts IH]; intros k; simpl.
  - by intros ?%elem_of_nil.
  - destruct (done st).
    + intros Hx%IH. lia.
    + intros [->|Hx%IH]%elem_of_cons; lia.
Qed.

Lemma pending_from_app (k : nat) sts sts' :
  pending_from k (sts ++ sts')
  = pending_from k sts ++ pending_from (k + length sts) sts'.
Proof.
  revert k. induction sts as [|st sts IH]; intros k; simpl.
  - by rewrite Nat.add_0_r.
  - rewrite IH, Nat.add_succ_r. by destruct (done st).
Qed.

Lemma filter_pending_below (k j : nat) sts :
  j < k → filter (fun cb => cb ≠ j) (pending_from k sts) = pending_from k sts.
Proof.
  revert k. induction sts as [|st sts IH]; intros k Hlt; [done|]. simpl.
  destruct (done st).
  - apply IH. lia.
  - rewrite filter_cons. destruct (decide (k ≠ j)); [|lia].
    f_equal. apply IH. lia.
Qed.

Lemma pending_from_alter (k j : nat) (ok : bool) sts :
  pending_from k
    (alter (fun st => {| desired_state := desired_state st;
                         done := true; success := ok |}) j sts)
  = filter (fun cb => cb ≠ k + j) (pending_from k sts).
Proof.
  revert k j. induction sts as [|st sts IH]; intros k j; [done|].
  destruct j as [|j]; simpl.
  - rewrite Nat.add_0_r. destruct (done st).
    + by rewrite filter_pending_below by lia.
    + rewrite filter_cons. destruct (decide (k ≠ k)); [done|].
      by rewrite filter_pending_below by lia.
  - pose proof (IH (S k) j) as IH'. unfold alter in IH'. rewrite IH'.
    rewrite Nat.add_succ_r. simpl. destruct (done st); [done|].
    rewrite filter_cons. by destruct (decide (k ≠ S (k + j))); [|lia].
Qed.

Lemma NoDup_pending_from (k : nat) sts : NoDup (pending_from k sts).
Proof.
  revert k. induction sts as [|st sts IH]; intros k; simpl.
  - constructor.
  - destruct (done st); [apply IH|].
    constructor; [|apply IH]. intros Hk%pending_from_bounds. lia.
Qed.

Lemma subs_check_value w (j : nat) :
  subs w = pending_from 0 (statuses w) →
  subs (check_value w j) = pending_from 0 (statuses (check_value w j)).
Proof.
  intros Hinv. unfold check_value. destruct (statuses w !! j); [|done].
  destruct (check_state w _); [|done].
  unfold _finished. simpl. by rewrite pending_from_alter, Hinv.
Qed.

Lemma subs_foldl_check_value (l : list nat) w :
  subs w = pending_from 0 (statuses w) →
  subs (foldl check_value w l)
  = pending_from 0 (statuses (foldl check_value w l)).
Proof.
  revert w. induction l as [|j l IH]; intros w Hinv; [done|].
  simpl. by apply IH, subs_check_value.
Qed.

Lemma subs_step w (e : event) :
  subs w = pending_from 0 (statuses w) →
  subs (step w e) = pending_from 0 (statuses (step w e)).
Proof.
  intros Hinv. destruct e as [d|v]; simpl.
  - unfold new_StateStatus. simpl. apply subs_check_value. simpl.
    rewrite pending_from_app, Hinv. done.
  - unfold _update. cbn [dev_value _prev_value subs statuses].
    case_bool_decide; [|done]. simpl. unfold _run_subs.
    by apply subs_foldl_check_value.
Qed.

(** X13: on a device that starts without statuses, after any run of
    creations and updates the subscribed checks are exactly the statuses
    that are not done, each once, in the order of their creation. *)
Theorem subs_are_pending (value : string) (prev : option string)
    (es : list event) :
  subs (steps (fresh value prev) es)
  = pending_from 0 (statuses (steps (fresh value prev) es)) ∧
  NoDup (subs (steps (fresh value prev) es)).
Proof.
  assert (subs (steps (fresh value prev) es)
          = pending_from 0 (statuses (steps (fresh value prev) es))) as Hinv.
  { unfold steps. generalize (fresh value prev) (eq_refl : subs (fresh value prev)
      = pending_from 0 (statuses (fresh value prev))).
    induction es as [|e es IH]; intros w Hw; [done|].
    simpl. by apply IH, subs_step. }
  split; [done|]. rewrite Hinv. apply NoDup_pending_from.
Qed.

End SubscriptionFacts.

(** A status that waits for OUT, on a device that reads IN while
    [_prev_value] still holds OUT, is not finished by updates to OUT. *)
Lemma _update_idempotent_witness :
  State.statuses
    (State.steps
       (State.new_StateStatus (Subscriptions.fresh "IN" (Some "OUT")) "OUT").1
       (replicate 3 (State.Update "OUT")))
  = [{| State.desired_state := "OUT"; State.done := false;
        State.success := false |}] ∧
  State.subs
    (State.steps
       (State.new_StateStatus (Subscriptions.fresh "IN" (Some "OUT")) "OUT").1
       (replicate 3 (State.Update "OUT")))
  = [0].
Proof.
  exact (proj2 (_update_idempotent
    (State.new_StateStatus (Subscriptions.fresh "IN" (Some "OUT")) "OUT").1
    "OUT") 3 eq_refl).
Defined.

(** ** The states record: moves and readbacks *)

Section StatesRecordFacts.
Import State StatesRecord.
Implicit Types (self : DeviceStatesRecord) (rs : list string).

Lemma _read_changed_fields self (r : string) :
  snd (_read_changed self r) =
    (if _move_requested self && negb (String.eqb r "Unknown")
     then Some (String.eqb (state_setpoint self) r) else None) ∧
  _move_requested (fst (_read_changed self r)) =
    _move_requested self && String.eqb r "Unknown" ∧
  state_setpoint (fst (_read_changed self r)) = state_setpoint self.
Proof.
  unfold _read_changed. cbn [_move_requested state_get state_setpoint].
  destruct (_move_requested self); [|done].
  by destruct (String.eqb r "Unknown").
Qed.

(** X14: over any run of readback changes, [_done_moving] is called at
    most once, and only if a move was requested: at the first readback
    other than ['Unknown'], with success exactly when that readback is
    what the setpoint reads; readbacks of ['Unknown'] keep the request
    waiting. *)
Theorem done_moving_once self rs :
  snd (readbacks self rs) =
    (if _move_requested self then
       match List.find (fun r => negb (String.eqb r "Unknown")) rs with
       | Some r => [String.eqb (state_setpoint self) r]
       | None => []
       end
     else []) ∧
  _move_requested (fst (readbacks self rs)) =
    _move_requested self && forallb (fun r => String.eqb r "Unknown") rs ∧
  state_setpoint (fst (readbacks self rs)) = state_setpoint self.
Proof.
  revert self. induction rs as [|r rs IH]; intros self.
  - simpl. destruct (_move_requested self); by rewrite ?andb_true_r.
  - cbn [readbacks List.find forallb].
    destruct (_read_changed_fields self r) as (Hcall & Hreq & Hset).
    destruct (_read_changed self r) as [self' call]. simpl in Hcall, Hreq, Hset.
    specialize (IH self'). destruct (readbacks self' rs) as [self'' calls].
    simpl in IH. destruct IH as (Hcalls & Hreq' & Hset'). simpl.
    rewrite Hcalls, Hreq', Hset', Hreq, Hset, Hcall.
    destruct (_move_requested self); [|done].
    by destruct (String.eqb r "Unknown").
Qed.

(** X15: a move by name to the state the device reads puts nothing and
    finishes at once, yet leaves [_move_requested] set, so that the next
    readback other than ['Unknown'] still calls [_done_moving]; a move by
    index is always put, also to the state the device reads; a value that
    is neither a name nor an index of the enum raises and puts nothing. *)
Theorem move_decisions self :
  (state_get self ∈ enum_strs self →
   move self (PVStr (state_get self)) = Finished (request self) ∧
   ∀ r, r ≠ "Unknown" →
        snd (_read_changed (request self) r)
        = Some (String.eqb (state_setpoint self) r)) ∧
  (∀ n, (0 ≤ n < Z.of_nat (length (enum_strs self)))%Z →
        move self (PVInt n) = Put (request self) (PVInt n)) ∧
  (∀ s, s ∉ enum_strs self → move self (PVStr s) = StateError) ∧
  (∀ n, ¬ (0 ≤ n < Z.of_nat (length (enum_strs self)))%Z →
        move self (PVInt n) = StateError).
Proof.
  unfold move, check_value. split_and!.
  - intros Hin. rewrite bool_decide_eq_true_2 by done.
    rewrite bool_decide_eq_false_2 by (intros Hne; by apply Hne).
    split; [done|]. intros r Hr. unfold _read_changed. simpl.
    apply String.eqb_neq in Hr. by rewrite Hr.
  - intros n Hn. rewrite bool_decide_eq_true_2 by done.
    by rewrite bool_decide_eq_true_2.
  - intros s Hs. by rewrite bool_decide_eq_false_2.
  - intros n Hn. by rewrite bool_decide_eq_false_2.
Qed.

End StatesRecordFacts.

(** ** The table driven LODCM: lines *)

Section EpicsLodcmMore.
Import State EpicsLodcm.

Lemma index_crystals_lt (x : string) (n : nat) :
  index crystals x = Some n → n < 3.
Proof.
  destruct (index_crystals x) as [[_ E]|[[_ E]|[[_ E]|[_ E]]]];
    rewrite E; intros [= <-]; lia.
Qed.

Lemma main_table_total (n1 n2 : nat) :
  n1 < 3 → n2 < 3 →
  ∃ s, main_table !! n1 ≫= (fun row => row !! n2) = Some s ∧
       s ∈ ["MAIN"; "BOTH"; "BLOCKED"; "MONO"].
Proof.
  intros H1 H2.
  destruct n1 as [|[|[|]]], n2 as [|[|[|]]]; try lia;
    eexists; (split; [reflexivity | compute_done]).
Qed.

Lemma mono_table_total (n2 : nat) :
  n2 < 3 → ∃ s, mono_table !! n2 = Some s ∧ s ∈ ["MONO"; "BLOCKED"].
Proof.
  intros H2. destruct n2 as [|[|[|]]]; try lia;
    eexists; (split; [reflexivity | compute_done]).
Qed.

(** The branch taken for the main and for the mono line returns one of
    the names of its table, or UNKNOWN. *)
Lemma destination_MAIN_returns (self : LODCM) (l : pv_value) :
  by_name l = Some MAIN ∨ by_name l = None ∧ by_value l = Some MAIN →
  ∃ s, destination self (Some l) = Return s ∧
       s ∈ ["MAIN"; "BOTH"; "BLOCKED"; "MONO"; "UNKNOWN"].
Proof.
  intros Hl. unfold destination.
  assert (match by_name l with Some m => Some m | None => by_value l end
          = Some MAIN) as -> by (by destruct Hl as [->|[-> ->]]).
  destruct (index crystals (h1n_state self)) as [n1|] eqn:E1;
    [|eexists; split; [done | compute_done]].
  destruct (index crystals (h2n_state self)) as [n2|] eqn:E2;
    [|eexists; split; [done | compute_done]].
  apply index_crystals_lt in E1, E2.
  destruct (main_table_total n1 n2 E1 E2) as (s & -> & Hs).
  exists s. split; [done|]. rewrite !elem_of_cons in *. tauto.
Qed.

Lemma destination_MONO_returns (self : LODCM) (l : pv_value) :
  by_name l = Some MONO ∨ by_name l = None ∧ by_value l = Some MONO →
  ∃ s, destination self (Some l) = Return s ∧
       s ∈ ["MONO"; "BLOCKED"; "UNKNOWN"].
Proof.
  intros Hl. unfold destination.
  assert (match by_name l with Some m => Some m | None => by_value l end
          = Some MONO) as -> by (by destruct Hl as [->|[-> ->]]).
  destruct (index crystals (h2n_state self)) as [n2|] eqn:E2;
    [|eexists; split; [done | compute_done]].
  apply index_crystals_lt in E2.
  destruct (mono_table_total n2 E2) as (s & -> & Hs).
  exists s. split; [done|]. rewrite !elem_of_cons in *. tauto.
Qed.

(** X16: [destination] takes a line by name or by number, 1 being the
    main line and 2 the mono line.  For every line it returns a name,
    returns nothing, or raises [ValueError]; it never fails on its
    tables; and it raises exactly for a line that is neither a name nor
    a number of [light_states]. *)
Theorem destination_lines (self : LODCM) (line : option pv_value) :
  destination self (Some (PVInt 1)) = destination self None ∧
  destination self (Some (PVInt 2)) = destination self (Some (PVStr "MONO")) ∧
  destination self line ≠ Raised IndexError ∧
  (destination self line = Raised ValueError ↔
   ∃ l, line = Some l ∧ by_name l = None ∧ by_value l = None).
Proof.
  split; [done|]. split; [done|].
  destruct line as [l|].
  - destruct (by_name l) as [m|] eqn:Hn; [|destruct (by_value l) as [m|] eqn:Hv].
    + assert (by_name l = Some m ∨ by_name l = None ∧ by_value l = Some m)
        as Hm by (by left).
      assert (destination self (Some l) ≠ Raised IndexError ∧
              destination self (Some l) ≠ Raised ValueError) as [? ?].
      { destruct m;
          [ | destruct (destination_MAIN_returns self l Hm) as (s & -> & _)
            | rewrite <- Hn in Hm;
              destruct (destination_MONO_returns self l) as (s & -> & _);
              [by rewrite Hn in *|] | | ];
          unfold destination; rewrite ?Hn; done. }
      split; [done|]. split; [done|]. intros (? & [= <-] & ? & _). congruence.
    + assert (by_name l = Some m ∨ by_name l = None ∧ by_value l = Some m)
        as Hm by (by right).
      assert (destination self (Some l) ≠ Raised IndexError ∧
              destination self (Some l) ≠ Raised ValueError) as [? ?].
      { destruct m;
          [ | destruct (destination_MAIN_returns self l Hm) as (s & -> & _)
            | destruct (destination_MONO_returns self l Hm) as (s & -> & _)
            | | ];
          unfold destination; rewrite ?Hn, ?Hv; done. }
      split; [done|]. split; [done|]. intros (? & [= <-] & _ & ?). congruence.
    + unfold destination. rewrite Hn, Hv. split; [done|]. split; [eauto|done].
  - destruct (destination_MAIN_returns self (PVStr "MAIN")) as (s & Hs & _);
      [by left|].
    change (destination self None) with (destination self (Some (PVStr "MAIN"))).
    rewrite Hs. split; [done|]. split; [done|]. by intros (? & ? & _).
Qed.

(** X17: on the mono line, asked for by name or as line 2, the result
    does not depend on H1N, and it is MONO, BLOCKED or UNKNOWN. *)
Theorem destination_mono_line (h1 h1' h2 : string) (l : pv_value) :
  l = PVStr "MONO" ∨ l = PVInt 2 →
  destination {| h1n_state := h1; h2n_state := h2 |} (Some l)
  = destination {| h1n_state := h1'; h2n_state := h2 |} (Some l) ∧
  ∃ s, destination {| h1n_state := h1; h2n_state := h2 |} (Some l) = Return s ∧
       s ∈ ["MONO"; "BLOCKED"; "UNKNOWN"].
Proof.
  intros Hl. split.
  - by destruct Hl as [-> | ->].
  - apply destination_MONO_returns. destruct Hl as [-> | ->]; [by left|by right].
Qed.

End EpicsLodcmMore.

Lemma move_decisions_witness :
  StatesRecord.move
    {| StatesRecord.enum_strs := ["Unknown"; "IN"; "OUT"];
       StatesRecord.state_get := "IN";
       StatesRecord.state_setpoint := "OUT";
       StatesRecord._move_requested := false |} (State.PVInt 1)
  = StatesRecord.Put
      (StatesRecord.request
         {| StatesRecord.enum_strs := ["Unknown"; "IN"; "OUT"];
            StatesRecord.state_get := "IN";
            StatesRecord.state_setpoint := "OUT";
            StatesRecord._move_requested := false |}) (State.PVInt 1).
Proof.
  apply (proj1 (proj2 (move_decisions
    {| StatesRecord.enum_strs := ["Unknown"; "IN"; "OUT"];
       StatesRecord.state_get := "IN";
       StatesRecord.state_setpoint := "OUT";
       StatesRecord._move_requested := false |}))).
  simpl. lia.
Defined.

Lemma destination_mono_line_witness :
  EpicsLodcm.destination
    {| EpicsLodcm.h1n_state := "Si"; EpicsLodcm.h2n_state := "OUT" |}
    (Some (State.PVInt 2))
  = EpicsLodcm.destination
      {| EpicsLodcm.h1n_state := "Unknown"; EpicsLodcm.h2n_state := "OUT" |}
      (Some (State.PVInt 2)).
Proof.
  apply (proj1 (destination_mono_line "Si" "Unknown" "OUT" (State.PVInt 2)
                  (or_intror eq_refl))).
Defined.

(** ** Motors: commands and flags *)

Section MotorMore.
Import State Motor MotorOps.
Implicit Types (self : PCDSMotorBase) (value : Q).

(** X18: a motor that was stopped, paused or disabled refuses every
    value, whatever its limits; after [enable] and [go] it accepts, the
    framework's check permitting, exactly the values within the soft
    limits. *)
Theorem commands_lock_and_unlock (super_check_value : Q → option exn)
    self value :
  check_value super_check_value (stop self) value ≠ None ∧
  check_value super_check_value (pause self) value ≠ None ∧
  check_value super_check_value (disable self) value ≠ None ∧
  (super_check_value value = None →
   (check_value super_check_value (go (enable self)) value = None ↔
    (low_soft_limit self <= value)%Q ∧ (value <= high_soft_limit self)%Q)).
Proof.
  unfold check_value, limits. split_and!.
  - destruct (super_check_value value); [done|]. simpl.
    by destruct (disabled self =? 1)%Z.
  - destruct (super_check_value value); [done|]. simpl.
    by destruct (disabled self =? 1)%Z.
  - by destruct (super_check_value value).
  - intros ->. simpl. rewrite <- within_limits.
    destruct (Qle_bool _ value && Qle_bool value _); simpl; split; done.
Qed.

(** X19: after the limits are set, an enabled motor on Go accepts
    exactly the values between them, both ends included; and limits set
    the wrong way round (high below low) make the motor refuse every
    value. *)
Theorem set_limits_then_check (super_check_value : Q → option exn)
    self (low high value : Q) :
  (super_check_value value = None → disabled self ≠ 1%Z →
   reads Go (motor_spg self) →
   (check_value super_check_value (set_limits self (low, high)) value = None ↔
    (low <= value)%Q ∧ (value <= high)%Q)) ∧
  ((high < low)%Q →
   check_value super_check_value (set_limits self (low, high)) value ≠ None).
Proof.
  unfold check_value, limits, set_limits. simpl.
  assert (Qle_bool low value && Qle_bool value high = true ↔
          (low <= value)%Q ∧ (value <= high)%Q) as Hlim
    by (by rewrite andb_true_iff, !Qle_bool_iff).
  split.
  - intros -> Hen Hgo. apply Z.eqb_neq in Hen. rewrite Hen.
    assert (in_ (motor_spg self) [PVInt 0; PVStr "Stop"] = false) as ->.
    { apply not_true_is_false. rewrite in_Stop. by destruct Hgo as [-> | ->];
        intros [?|?]. }
    assert (in_ (motor_spg self) [PVInt 1; PVStr "Pause"] = false) as ->.
    { apply not_true_is_false. rewrite in_Pause. by destruct Hgo as [-> | ->];
        intros [?|?]. }
    rewrite <- Hlim.
    destruct (Qle_bool low value && Qle_bool value high); simpl; split; done.
  - intros Hinv. destruct (super_check_value value); [done|].
    destruct (disabled self =? 1)%Z; [done|].
    destruct (in_ _ [PVInt 0; _]); [done|].
    destruct (in_ _ [PVInt 1; _]); [done|].
    destruct (Qle_bool low value && Qle_bool value high); [|done].
    destruct (proj1 Hlim eq_refl) as [H1 H2].
    exfalso. apply (Qlt_irrefl low).
    eapply Qle_lt_trans; [|exact Hinv]. by eapply Qle_trans.
Qed.

End MotorMore.

Section ImsMore.
Import State Motor MotorOps.

(** The bits a mask of [k] ones reads after a shift by [b]. *)
Lemma land_shiftr_ones (v b k : Z) :
  (0 ≤ b)%Z → (0 ≤ k)%Z →
  Z.land (Z.shiftr v b) (Z.ones k) = 0%Z ↔
  ∀ i, (b ≤ i < b + k)%Z → Z.testbit v i = false.
Proof.
  intros Hb Hk. split.
  - intros Hz i Hi.
    assert (Z.testbit (Z.land (Z.shiftr v b) (Z.ones k)) (i - b) = false)
      as Hbit by (rewrite Hz; apply Z.bits_0).
    rewrite Z.land_spec, Z.shiftr_spec, Z.ones_spec_low in Hbit by lia.
    rewrite andb_true_r in Hbit. by replace (i - b + b)%Z with i in Hbit by lia.
  - intros Hbits. apply Z.bits_inj'. intros n Hn.
    rewrite Z.land_spec, Z.shiftr_spec, Z.bits_0 by lia.
    destruct (Z.lt_ge_cases n k).
    + rewrite Hbits by lia. done.
    + rewrite Z.ones_spec_high by lia. apply andb_false_r.
Qed.

(** X20: which bits of [bit_status] each flag reads: [_clear_flag] sends
    nothing for powerup exactly when bit 24 is 0, for stall exactly when
    bit 22 is 0, and for error exactly when the bits 15 to 21 are all 0;
    otherwise it sends the clear code of the flag, once. *)
Theorem flags_read_bits (status_wait : status → option exn) (v : Z)
    (wait : bool) :
  (seq_seln_puts (_clear_flag status_wait v "powerup" wait) =
     if Z.testbit v 24 then [36%Z] else []) ∧
  (seq_seln_puts (_clear_flag status_wait v "stall" wait) =
     if Z.testbit v 22 then [40%Z] else []) ∧
  (seq_seln_puts (_clear_flag status_wait v "error" wait) = [] ↔
   ∀ i, (15 ≤ i ≤ 21)%Z → Z.testbit v i = false) ∧
  (seq_seln_puts (_clear_flag status_wait v "error" wait) = [] ∨
   seq_seln_puts (_clear_flag status_wait v "error" wait) = [48%Z]).
Proof.
  assert (∀ b, (0 ≤ b)%Z →
            flag_is_cleared b 1 v = negb (Z.testbit v b)) as Hone.
  { intros b Hb. apply eq_true_iff_eq.
    rewrite flag_is_cleared_spec, negb_true_iff.
    change 1%Z with (Z.ones 1). rewrite land_shiftr_ones by lia.
    split; [intros Hi; apply Hi; lia|].
    intros Hv i Hi. by replace i with b by lia. }
  unfold _clear_flag.
  change (_bit_flags !! "powerup")
    with (Some {| clear := 36; readback := 24; mask := None |}).
  change (_bit_flags !! "stall")
    with (Some {| clear := 40; readback := 22; mask := None |}).
  change (_bit_flags !! "error")
    with (Some {| clear := 48; readback := 15; mask := Some 0x7f%Z |}).
  cbn [readback mask clear default from_option].
  split_and!.
  - rewrite Hone by lia. by destruct (Z.testbit v 24).
  - rewrite Hone by lia. by destruct (Z.testbit v 22).
  - pose proof (flag_is_cleared_spec 15 0x7f v) as Hspec.
    destruct (flag_is_cleared _ _ v); simpl;
      change 0x7f%Z with (Z.ones 7) in Hspec;
      rewrite land_shiftr_ones in Hspec by lia.
    + split; [intros _ i Hi|done]. apply Hspec; [done|lia].
    + split; [done|]. intros Hbits.
      assert (false = true) by (apply Hspec; intros i Hi; apply Hbits; lia).
      done.
  - destruct (flag_is_cleared _ _ v); [by left|by right].
Qed.

End ImsMore.

Section ImsRoutines.
Import State Motor MotorOps.
Variable react : IMS → command → IMS.
Variable status_wait : status → option exn.
Implicit Types (r : run) (self : IMS).

Lemma _bit_flags_keys (flag : string) (info : flag_info) :
  _bit_flags !! flag = Some info → flag ∈ ["powerup"; "stall"; "error"].
Proof.
  unfold _bit_flags. intros Hl.
  apply lookup_insert_Some in Hl as [[<- _]|[_ Hl]]; [left|].
  apply lookup_insert_Some in Hl as [[<- _]|[_ Hl]]; [right; left|].
  apply lookup_singleton_Some in Hl as [<- _]. right; right; left.
Qed.

(** One step of [clear_all_flags] on a routine that has not raised. *)
Lemma clear_flag_step_cases r (flag : string) (info : flag_info) :
  raised r = None → _bit_flags !! flag = Some info →
  (masked_bits info (bit_status (signals r)) = 0%Z →
   clear_flag_step react status_wait r flag = r) ∧
  (masked_bits info (bit_status (signals r)) ≠ 0%Z →
   clear_flag_step react status_wait r flag =
   {| signals := react (signals r) (SeqSeln (clear info));
      sent := sent r ++ [SeqSeln (clear info)];
      raised := status_wait
                  (SubscriptionStatus
                     (flag_is_cleared (readback info)
                        (default 1%Z (mask info)))) |}).
Proof.
  intros Hr Hinfo. unfold clear_flag_step, _clear_flag. rewrite Hr, Hinfo.
  pose proof (flag_is_cleared_spec (readback info) (default 1%Z (mask info))
                (bit_status (signals r))) as Hspec.
  fold (masked_bits info (bit_status (signals r))) in Hspec.
  destruct (flag_is_cleared _ _ (bit_status (signals r))); simpl.
  - split; [|intros Hne; by destruct Hne; apply Hspec].
    intros _. destruct r as [s l e]. simpl in *. by rewrite app_nil_r, Hr.
  - split; [intros Hz; by apply Hspec in Hz|]. intros _.
    by destruct (status_wait _).
Qed.

Lemma clear_flag_step_raised r (flag : string) :
  raised r ≠ None → clear_flag_step react status_wait r flag = r.
Proof. unfold clear_flag_step. by destruct (raised r). Qed.

(** What one step sends: nothing, or the clear code of its flag. *)
Lemma clear_flag_step_sent r (flag : string) (info : flag_info) :
  _bit_flags !! flag = Some info →
  ∃ codes, sent (clear_flag_step react status_wait r flag)
           = sent r ++ (SeqSeln <$> codes) ∧
           codes `sublist_of` [clear info].
Proof.
  intros Hinfo. destruct (raised r) as [e|] eqn:Hr.
  - rewrite clear_flag_step_raised by (by rewrite Hr).
    exists []. split; [by rewrite app_nil_r | apply sublist_nil_l].
  - destruct (clear_flag_step_cases r flag info Hr Hinfo) as [Hz Hnz].
    destruct (decide (masked_bits info (bit_status (signals r)) = 0%Z)) as [H0|H0].
    + rewrite (Hz H0). exists []. split; [by rewrite app_nil_r | apply sublist_nil_l].
    + rewrite (Hnz H0). by exists [clear info].
Qed.

Lemma clear_all_flags_sent r :
  ∃ codes, sent (clear_all_flags react status_wait r)
           = sent r ++ (SeqSeln <$> codes) ∧
           codes `sublist_of` [36%Z; 40%Z; 48%Z].
Proof.
  unfold clear_all_flags. simpl.
  destruct (clear_flag_step_sent r "powerup" _ eq_refl) as (c1 & H1 & S1).
  set (r1 := clear_flag_step react status_wait r "powerup") in *.
  destruct (clear_flag_step_sent r1 "stall" _ eq_refl) as (c2 & H2 & S2).
  set (r2 := clear_flag_step react status_wait r1 "stall") in *.
  destruct (clear_flag_step_sent r2 "error" _ eq_refl) as (c3 & H3 & S3).
  exists (c1 ++ c2 ++ c3). split.
  - rewrite H3, H2, H1, !fmap_app, <- !app_assoc. done.
  - change [36%Z; 40%Z; 48%Z] with ([36%Z] ++ [40%Z] ++ [48%Z]).
    by repeat apply sublist_app.
Qed.

(** One step on a flag that reads set: the clear code is sent, and the
    step ends as the wait does. *)
Lemma clear_flag_step_set r (flag : string) (info : flag_info) :
  raised r = None → _bit_flags !! flag = Some info →
  flag_is_cleared (readback info) (default 1%Z (mask info))
    (bit_status (signals r)) = false →
  clear_flag_step react status_wait r flag =
  {| signals := react (signals r) (SeqSeln (clear info));
     sent := sent r ++ [SeqSeln (clear info)];
     raised := status_wait
                 (SubscriptionStatus
                    (flag_is_cleared (readback info)
                       (default 1%Z (mask info)))) |}.
Proof.
  intros Hr Hinfo Hset. unfold clear_flag_step, _clear_flag.
  rewrite Hr, Hinfo, Hset. simpl. by destruct (status_wait _).
Qed.

(** X21: whatever the motor does and however the waits end,
    [clear_all_flags] sends to [seq_seln] only clear codes, each at most
    once and in the order powerup (36), stall (40), error (48).  A wait
    that raises ends the routine: when the wait for powerup, for stall or
    for error raises, the routine ends with that exception, the clear
    code of that flag being the last thing sent and the flags after it
    not looked at; and a routine that has raised already is left as it
    is. *)
Theorem clear_all_flags_sends r :
  (∃ codes, sent (clear_all_flags react status_wait r)
            = sent r ++ (SeqSeln <$> codes) ∧
            codes `sublist_of` [36%Z; 40%Z; 48%Z]) ∧
  (raised r ≠ None → clear_all_flags react status_wait r = r) ∧
  (∀ e, raised r = None →
     flag_is_cleared 24 1 (bit_status (signals r)) = false →
     status_wait (SubscriptionStatus (flag_is_cleared 24 1)) = Some e →
     clear_all_flags react status_wait r =
     {| signals := react (signals r) (SeqSeln 36);
        sent := sent r ++ [SeqSeln 36];
        raised := Some e |}) ∧
  (∀ e, let r1 := clear_flag_step react status_wait r "powerup" in
     raised r1 = None →
     flag_is_cleared 22 1 (bit_status (signals r1)) = false →
     status_wait (SubscriptionStatus (flag_is_cleared 22 1)) = Some e →
     clear_all_flags react status_wait r =
     {| signals := react (signals r1) (SeqSeln 40);
        sent := sent r1 ++ [SeqSeln 40];
        raised := Some e |}) ∧
  (∀ e, let r2 := clear_flag_step react status_wait
                    (clear_flag_step react status_wait r "powerup") "stall" in
     raised r2 = None →
     flag_is_cleared 15 0x7f (bit_status (signals r2)) = false →
     status_wait (SubscriptionStatus (flag_is_cleared 15 0x7f)) = Some e →
     clear_all_flags react status_wait r =
     {| signals := react (signals r2) (SeqSeln 48);
        sent := sent r2 ++ [SeqSeln 48];
        raised := Some e |}).
Proof.
  split; [apply clear_all_flags_sent|]. unfold clear_all_flags.
  cbn [foldl]. split_and!.
  - intros Hr. rewrite (clear_flag_step_raised r "powerup") by done.
    rewrite (clear_flag_step_raised r "stall") by done.
    by rewrite (clear_flag_step_raised r "error").
  - intros e Hr Hset Hwait.
    rewrite (clear_flag_step_set r "powerup" _ Hr eq_refl Hset).
    cbn [readback mask clear default from_option]. rewrite Hwait.
    rewrite (clear_flag_step_raised _ "stall") by done.
    by rewrite (clear_flag_step_raised _ "error").
  - intros e Hr Hset Hwait.
    rewrite (clear_flag_step_set _ "stall" _ Hr eq_refl Hset).
    cbn [readback mask clear default from_option]. rewrite Hwait.
    by rewrite (clear_flag_step_raised _ "error").
  - intros e Hr Hset Hwait.
    rewrite (clear_flag_step_set _ "error" _ Hr eq_refl Hset).
    cbn [readback mask clear default from_option id]. by rewrite Hwait.
Qed.

(** X22: on a motor whose flags all read clear, [clear_all_flags] sends
    nothing, waits for nothing and raises nothing. *)
Theorem clear_all_flags_clean r :
  raised r = None → all_clear (bit_status (signals r)) →
  clear_all_flags react status_wait r = r.
Proof.
  intros Hr Hclear. unfold clear_all_flags. simpl.
  assert (∀ flag, flag ∈ ["powerup"; "stall"; "error"] →
            clear_flag_step react status_wait r flag = r) as Hstep.
  { intros flag Hflag. destruct (_bit_flags_lookup flag Hflag) as [info Hinfo].
    apply (clear_flag_step_cases r flag info Hr Hinfo).
    by apply (Hclear flag). }
  rewrite !Hstep; [done | | | ]; compute_done.
Qed.

(** X23: when every wait returns, every clear code clears the bits of
    its flag, and no command sets the bits of a flag that reads clear,
    then after [clear_all_flags] nothing was raised and every flag reads
    clear. *)
Theorem clear_all_flags_clears r :
  (∀ st, status_wait st = None) →
  (∀ s flag info, _bit_flags !! flag = Some info →
     masked_bits info (bit_status (react s (SeqSeln (clear info)))) = 0%Z) →
  (∀ s c flag info, _bit_flags !! flag = Some info →
     masked_bits info (bit_status s) = 0%Z →
     masked_bits info (bit_status (react s c)) = 0%Z) →
  raised r = None →
  raised (clear_all_flags react status_wait r) = None ∧
  all_clear (bit_status (signals (clear_all_flags react status_wait r))).
Proof.
  intros Hwait Hclears Hkeeps Hr.
  assert (∀ r0 flag info, raised r0 = None → _bit_flags !! flag = Some info →
            let r1 := clear_flag_step react status_wait r0 flag in
            raised r1 = None ∧
            masked_bits info (bit_status (signals r1)) = 0%Z ∧
            ∀ flag' info', _bit_flags !! flag' = Some info' →
              masked_bits info' (bit_status (signals r0)) = 0%Z →
              masked_bits info' (bit_status (signals r1)) = 0%Z) as Hstep.
  { intros r0 flag info Hr0 Hinfo.
    destruct (clear_flag_step_cases r0 flag info Hr0 Hinfo) as [Hz Hnz].
    destruct (decide (masked_bits info (bit_status (signals r0)) = 0%Z))
      as [H0|H0]; simpl.
    - rewrite (Hz H0). done.
    - rewrite (Hnz H0). simpl.
      split_and!; [apply Hwait | by apply (Hclears _ flag) |].
      intros flag' info' Hinfo' Hz'. by apply (Hkeeps _ _ flag'). }
  unfold clear_all_flags. simpl.
  destruct (Hstep r "powerup" _ Hr eq_refl) as (Hr1 & Hp1 & _).
  set (r1 := clear_flag_step react status_wait r "powerup") in *.
  destruct (Hstep r1 "stall" _ Hr1 eq_refl) as (Hr2 & Hs2 & Hk2).
  set (r2 := clear_flag_step react status_wait r1 "stall") in *.
  destruct (Hstep r2 "error" _ Hr2 eq_refl) as (Hr3 & He3 & Hk3).
  set (r3 := clear_flag_step react status_wait r2 "error") in *.
  split; [done|]. intros flag info Hinfo.
  pose proof (_bit_flags_keys flag info Hinfo) as Hflag.
  apply list_elem_of_In in Hflag. simpl in Hflag.
  destruct Hflag as [<-|[<-|[<-|[]]]].
  - apply (Hk3 "powerup"); [done|]. apply (Hk2 "powerup"); [done|].
    by injection Hinfo as <-.
  - apply (Hk3 "stall"); [done|]. by injection Hinfo as <-.
  - by injection Hinfo as <-.
Qed.



End ImsRoutines.

Lemma commands_lock_and_unlock_witness :
  Motor.check_value Examples.accept
    (MotorOps.go (MotorOps.enable (Examples.motor 1 (State.PVInt 0)))) 5
  = None.
Proof.
  apply (proj2 (proj2 (proj2 (commands_lock_and_unlock Examples.accept
                                (Examples.motor 1 (State.PVInt 0)) 5)))).
  - reflexivity.
  - split; by vm_compute.
Defined.

Lemma set_limits_then_check_witness :
  Motor.check_value Examples.accept
    (MotorOps.set_limits (Examples.motor 0 (State.PVInt 2)) (10, 0)%Q) 5
  ≠ None.
Proof.
  apply (proj2 (set_limits_then_check Examples.accept
                  (Examples.motor 0 (State.PVInt 2)) 10 0 5)).
  reflexivity.
Defined.

Lemma all_clear_0 : MotorOps.all_clear 0.
Proof.
  intros flag info _. unfold Motor.masked_bits.
  by rewrite Z.shiftr_0_l, Z.land_0_l.
Qed.

(** Stall and error set, and the wait for stall times out: 40 is sent,
    the routine ends with the exception, and 48 is never sent. *)
Lemma clear_all_flags_sends_witness :
  MotorOps.clear_all_flags Examples.obedient Examples.stall_times_out
    {| MotorOps.signals := Examples.ims 4227072; MotorOps.sent := [];
       MotorOps.raised := None |}
  = {| MotorOps.signals :=
         Examples.obedient (Examples.ims 4227072) (MotorOps.SeqSeln 40);
       MotorOps.sent := [MotorOps.SeqSeln 40];
       MotorOps.raised := Some FrameworkError |}.
Proof.
  exact (proj1 (proj2 (proj2 (proj2 (clear_all_flags_sends Examples.obedient
    Examples.stall_times_out
    {| MotorOps.signals := Examples.ims 4227072; MotorOps.sent := [];
       MotorOps.raised := None |})))) FrameworkError eq_refl eq_refl eq_refl).
Defined.

Lemma clear_all_flags_clean_witness :
  MotorOps.clear_all_flags Examples.obedient Examples.no_timeout
    {| MotorOps.signals := Examples.ims 0; MotorOps.sent := [];
       MotorOps.raised := None |}
  = {| MotorOps.signals := Examples.ims 0; MotorOps.sent := [];
       MotorOps.raised := None |}.
Proof.
  apply (clear_all_flags_clean Examples.obedient Examples.no_timeout
    {| MotorOps.signals := Examples.ims 0; MotorOps.sent := [];
       MotorOps.raised := None |}).
  - reflexivity.
  - exact all_clear_0.
Defined.

Lemma clear_all_flags_clears_witness :
  MotorOps.raised
    (MotorOps.clear_all_flags Examples.obedient Examples.no_timeout
       {| MotorOps.signals := Examples.ims 4194304; MotorOps.sent := [];
          MotorOps.raised := None |}) = None ∧
  MotorOps.all_clear
    (MotorOps.bit_status
       (MotorOps.signals
          (MotorOps.clear_all_flags Examples.obedient Examples.no_timeout
             {| MotorOps.signals := Examples.ims 4194304; MotorOps.sent := [];
                MotorOps.raised := None |}))).
Proof.
  apply (clear_all_flags_clears Examples.obedient Examples.no_timeout
    {| MotorOps.signals := Examples.ims 4194304; MotorOps.sent := [];
       MotorOps.raised := None |}).
  - reflexivity.
  - intros s flag info Hinfo. by apply (all_clear_0 flag).
  - intros s [v|code] flag info Hinfo Hz; [exact Hz|].
    by apply (all_clear_0 flag).
  - reflexivity.
Defined.


Lemma auto_setup_alarmed_stalled :
  MotorOps.sent
    (MotorOps.auto_setup Examples.obedient Examples.no_timeout
       (Examples.alarmed_ims 4194304))
  = [MotorOps.Reinit 1; MotorOps.SeqSeln 40].
Proof. reflexivity. Qed.
